(** * Variable definitions of the house-prices project

    A shallow embedding of the three Python modules of [house-prices]:
    - [parse_variables.py]: the scanner that extracts the definitions of
      all the variables from the documentation file;
    - [qualitative_variables.py]: its older sibling, which only extracts
      the qualitative variables;
    - [utils.py]: the loader of the definitions and its two classifiers.

    A Python [str] decoded from Latin-1 is a [string] (one [ascii] per
    byte), a [dict] with string keys is a [gmap string _], the regular
    expressions are kept as syntax and run by a backtracking matcher, and
    the loop over the lines of the file threads an explicit state. *)

From Stdlib Require Import Ascii.
From stdpp Require Import base option list strings gmap.

(** ** Python strings *)

Module Py.

Definition TAB : ascii := "009"%char.
Definition LF : ascii := "010"%char.
Definition CR : ascii := "013"%char.
Definition SP : ascii := " "%char.

(** [str.isspace] on the code points below 256; the regular
    expression class [\s] on a [str] pattern is the same set. *)
Definition isspace (c : ascii) : bool :=
  let n := nat_of_ascii c in
  ((9 <=? n) && (n <=? 13)) || ((28 <=? n) && (n <=? 32))
  || (n =? 133) || (n =? 160).

Fixpoint lstrip (s : string) : string :=
  match s with
  | EmptyString => EmptyString
  | String a s' => if isspace a then lstrip s' else s
  end.

Fixpoint rstrip (s : string) : string :=
  match s with
  | EmptyString => EmptyString
  | String a s' =>
      match rstrip s' with
      | EmptyString => if isspace a then EmptyString else String a EmptyString
      | r => String a r
      end
  end.

(** [s.strip()] *)
Definition strip (s : string) : string := rstrip (lstrip s).

(** [len(line.strip()) == 0] *)
Definition is_blank (line : string) : bool :=
  String.length (strip line) =? 0.

(** Text mode with [newline=None]: ["\r\n"] and a lone ["\r"] are read
    as ["\n"]. *)
Fixpoint translate_newlines (s : string) : string :=
  match s with
  | EmptyString => EmptyString
  | String a s' =>
      if Ascii.eqb a CR then
        match s' with
        | String b s'' =>
            if Ascii.eqb b LF then String LF (translate_newlines s'')
            else String LF (translate_newlines s')
        | EmptyString => String LF EmptyString
        end
      else String a (translate_newlines s')
  end.

(** Iterating over a text file: every line keeps its ["\n"], the last
    one may lack it. *)
Fixpoint split_lines (s : string) : list string :=
  match s with
  | EmptyString => []
  | String a s' =>
      if Ascii.eqb a LF then String LF EmptyString :: split_lines s'
      else match split_lines s' with
           | [] => [String a EmptyString]
           | l :: ls => String a l :: ls
           end
  end.

(** [for line in f], for a file of contents [s]. *)
Definition readlines (s : string) : list string :=
  split_lines (translate_newlines s).

(** The values that occur in a definitions file: strings, and lists of
    strings. *)
Inductive value :=
| PStr (s : string)
| PList (l : list string).

#[global] Instance value_eq_dec : EqDecision value.
Proof. solve_decision. Defined.

End Py.

(** ** Regular expressions

    The fragment of [re] that the three patterns use: a literal
    character, a greedy repetition of a character class (with bounds),
    an alternation of literal words; the last two may be a named
    group. *)

Module Re.

Inductive node :=
| Lit (c : ascii)
| Rep (cls : ascii -> bool) (lo : nat) (hi : option nat) (grp : option string)
| Alt (words : list string) (grp : option string).

Definition regex := list node.

(** The named groups of a match object. *)
Abbreviation groups := (gmap string string).

Definition capture (grp : option string) (text : string) (g : groups) : groups :=
  match grp with
  | Some name => <[name := text]> g
  | None => g
  end.

Definition below (hi : option nat) (n : nat) : bool :=
  match hi with
  | Some h => n <? h
  | None => true
  end.

Fixpoint str_take (n : nat) (s : string) : string :=
  match n, s with
  | S n', String a s' => String a (str_take n' s')
  | _, _ => EmptyString
  end.

Fixpoint strip_prefix (w s : string) : option string :=
  match w, s with
  | EmptyString, _ => Some s
  | String a w', String b s' => if Ascii.eqb a b then strip_prefix w' s' else None
  | String _ _, EmptyString => None
  end.

(** Greedy repetition: consume as many characters of the class as the
    upper bound allows, then give back one at a time until the rest
    of the pattern ([k]) matches. [n] is the count taken so far. *)
Fixpoint rep {R} (cls : ascii -> bool) (lo : nat) (hi : option nat)
    (k : nat -> string -> option R) (n : nat) (s : string) : option R :=
  let stop := if lo <=? n then k n s else None in
  match s with
  | String a s' =>
      if cls a && below hi n then
        match rep cls lo hi k (S n) s' with
        | Some r => Some r
        | None => stop
        end
      else stop
  | EmptyString => stop
  end.

(** The first alternative that lets the rest of the pattern match. *)
Fixpoint first_some {A R} (f : A -> option R) (l : list A) : option R :=
  match l with
  | [] => None
  | x :: l' => match f x with Some r => Some r | None => first_some f l' end
  end.

Fixpoint match_here (r : regex) (s : string) (g : groups) : option groups :=
  match r with
  | [] => Some g
  | Lit c :: r' =>
      match s with
      | String a s' => if Ascii.eqb a c then match_here r' s' g else None
      | EmptyString => None
      end
  | Rep cls lo hi grp :: r' =>
      rep cls lo hi (fun n rest => match_here r' rest (capture grp (str_take n s) g)) 0 s
  | Alt words grp :: r' =>
      first_some
        (fun w => match strip_prefix w s with
                  | Some rest => match_here r' rest (capture grp w g)
                  | None => None
                  end)
        words
  end.

(** [pattern.match(s)]: anchored at the start of [s], not at its end. *)
Definition re_match (r : regex) (s : string) : option groups :=
  match_here r s ∅.

(** [m.group(name)] *)
Definition group (m : groups) (name : string) : option string := m !! name.

Definition is_char (c : ascii) : ascii -> bool := fun a => Ascii.eqb a c.
Definition not_char (c : ascii) : ascii -> bool := fun a => negb (Ascii.eqb a c).

End Re.

Import Py Re.

(** ** The scanner

    Both parser modules run the same loop over the lines of the file,
    with the same local variables; [name] and [kind] are unbound until a
    header has been seen. *)

Record state := State {
  definitions : list (gmap string value);
  in_definition : bool;
  values : list string;
  name : option string;
  kind : option string
}.

(** The state before the first line. *)
Definition init : state :=
  {| definitions := []; in_definition := false; values := [];
     name := None; kind := None |}.

(** [for line in f: body], from the state [st]; [None] is an exception
    raised by the body. *)
Fixpoint loop (body : state -> string -> option state) (st : state)
    (lines : list string) : option state :=
  match lines with
  | [] => Some st
  | line :: rest => st' ← body st line; loop body st' rest
  end.

(** ** parse_variables.py *)

Module ParseVariables.

(** [(?P<name>[^(]+)], an opening parenthesis, [(?P<kind>Nominal|Ordinal)],
    a closing parenthesis, [\s*:] *)
Definition P_QUALITATIVE : regex :=
  [ Rep (not_char "(") 1 None (Some "name");
    Lit "(";
    Alt ["Nominal"; "Ordinal"] (Some "kind");
    Lit ")"; Rep isspace 0 None None; Lit ":" ].

(** [[ ]{7}], [(?P<value>[^\t]+)], a tab *)
Definition P_VALUE : regex :=
  [ Rep (is_char SP) 7 (Some 7) None;
    Rep (not_char TAB) 1 None (Some "value");
    Lit TAB ].

(** As [P_QUALITATIVE], with [(?P<kind>Discrete|Continuous)] *)
Definition P_QUANTITATIVE : regex :=
  [ Rep (not_char "(") 1 None (Some "name");
    Lit "(";
    Alt ["Discrete"; "Continuous"] (Some "kind");
    Lit ")"; Rep isspace 0 None None; Lit ":" ].

(** One iteration of the loop; [None] is an exception (a variable read
    before it is bound, a group that took no part in the match). *)
Definition step (st : state) (line : string) : option state :=
  if is_blank line then Some st
  else
    st1 ←
      (if in_definition st then
         match re_match P_VALUE line with
         | Some m =>
             v ← group m "value";
             Some {| definitions := definitions st;
                     in_definition := in_definition st;
                     values := values st ++ [strip v];
                     name := name st; kind := kind st |}
         | None =>
             n ← name st; k ← kind st;
             let definition : gmap string value :=
               {[ "name" := PStr n; "kind" := PStr k;
                  "values" := PList (values st) ]} in
             Some {| definitions := definitions st ++ [definition];
                     in_definition := false; values := [];
                     name := name st; kind := kind st |}
         end
       else Some st);
    if in_definition st1 then Some st1
    else
      st2 ←
        match re_match P_QUALITATIVE line with
        | Some m =>
            n ← group m "name"; k ← group m "kind";
            Some {| definitions := definitions st1; in_definition := true;
                    values := values st1;
                    name := Some (strip n); kind := Some (strip k) |}
        | None => Some st1
        end;
      match re_match P_QUANTITATIVE line with
      | Some m =>
          n ← group m "name"; k ← group m "kind";
          let definition : gmap string value :=
            {[ "name" := PStr (strip n); "kind" := PStr (strip k) ]} in
          Some {| definitions := definitions st2 ++ [definition];
                  in_definition := in_definition st2; values := values st2;
                  name := Some (strip n); kind := Some (strip k) |}
      | None => Some st2
      end.

Definition parse_lines (lines : list string) : option (list (gmap string value)) :=
  st ← loop step init lines; Some (definitions st).

(** [parse_definitions(path)], for a file at [path] of contents
    [contents]. *)
Definition parse_definitions (contents : string) : option (list (gmap string value)) :=
  parse_lines (readlines contents).

End ParseVariables.

(** ** parse_variables.py, with its list objects

    The loop body appends to the list [values] in place and puts the
    list itself, not a copy of it, in the record it emits; [values = []]
    then makes a new list. Here the lists live in a heap, a record holds
    a reference, and a call starts from the heap that earlier calls have
    left. *)

Module Store.

Inductive hvalue :=
| HStr (s : string)
| HRef (r : nat).

(** The list objects, each at the index that is its reference. *)
Abbreviation heap := (list (list string)).

Record hstate := HState {
  heap_of : heap;
  h_definitions : list (gmap string hvalue);
  h_in_definition : bool;
  h_values : nat;
  h_name : option string;
  h_kind : option string
}.

(** The state before the first line: [values = []] is a new list. *)
Definition start (h : heap) : hstate :=
  {| heap_of := h ++ [[]]; h_definitions := []; h_in_definition := false;
     h_values := length h; h_name := None; h_kind := None |}.

Definition step (st : hstate) (line : string) : option hstate :=
  if is_blank line then Some st
  else
    st1 ←
      (if h_in_definition st then
         match re_match ParseVariables.P_VALUE line with
         | Some m =>
             v ← group m "value";
             vs ← heap_of st !! h_values st;
             Some {| heap_of := <[h_values st := vs ++ [strip v]]> (heap_of st);
                     h_definitions := h_definitions st;
                     h_in_definition := h_in_definition st;
                     h_values := h_values st;
                     h_name := h_name st; h_kind := h_kind st |}
         | None =>
             n ← h_name st; k ← h_kind st;
             let definition : gmap string hvalue :=
               {[ "name" := HStr n; "kind" := HStr k;
                  "values" := HRef (h_values st) ]} in
             Some {| heap_of := heap_of st ++ [[]];
                     h_definitions := h_definitions st ++ [definition];
                     h_in_definition := false;
                     h_values := length (heap_of st);
                     h_name := h_name st; h_kind := h_kind st |}
         end
       else Some st);
    if h_in_definition st1 then Some st1
    else
      st2 ←
        match re_match ParseVariables.P_QUALITATIVE line with
        | Some m =>
            n ← group m "name"; k ← group m "kind";
            Some {| heap_of := heap_of st1; h_definitions := h_definitions st1;
                    h_in_definition := true; h_values := h_values st1;
                    h_name := Some (strip n); h_kind := Some (strip k) |}
        | None => Some st1
        end;
      match re_match ParseVariables.P_QUANTITATIVE line with
      | Some m =>
          n ← group m "name"; k ← group m "kind";
          let definition : gmap string hvalue :=
            {[ "name" := HStr (strip n); "kind" := HStr (strip k) ]} in
          Some {| heap_of := heap_of st2;
                  h_definitions := h_definitions st2 ++ [definition];
                  h_in_definition := h_in_definition st2;
                  h_values := h_values st2;
                  h_name := Some (strip n); h_kind := Some (strip k) |}
      | None => Some st2
      end.

Fixpoint hloop (st : hstate) (lines : list string) : option hstate :=
  match lines with
  | [] => Some st
  | line :: rest => st' ← step st line; hloop st' rest
  end.

(** A call on the heap [h]: the heap it leaves and the records it
    returns. *)
Definition parse_lines (h : heap) (lines : list string)
    : option (heap * list (gmap string hvalue)) :=
  st ← hloop (start h) lines; Some (heap_of st, h_definitions st).

Definition parse_definitions (h : heap) (contents : string)
    : option (heap * list (gmap string hvalue)) :=
  parse_lines h (readlines contents).

(** Reading a value, and a list of records, in a heap. *)
Definition read (h : heap) (v : hvalue) : value :=
  match v with
  | HStr s => PStr s
  | HRef r => PList (default [] (h !! r))
  end.

Definition observe (h : heap) (ds : list (gmap string hvalue))
    : list (gmap string value) :=
  (fun d : gmap string hvalue => read h <$> d) <$> ds.

(** The references of the records [ds] are lists made by a call that
    began on the heap [h0] and has its current list at [cur]. *)
Definition refs_within (h0 : heap) (cur : nat) (ds : list (gmap string hvalue)) : Prop :=
  Forall (fun d : gmap string hvalue =>
            forall key r, d !! key = Some (HRef r) -> length h0 <= r < cur) ds.

(** The state with the heap stands for the state without. *)
Definition sim (h0 : heap) (hst : hstate) (st : state) : Prop :=
  h_in_definition hst = in_definition st /\
  h_name hst = name st /\ h_kind hst = kind st /\
  heap_of hst !! h_values hst = Some (values st) /\
  observe (heap_of hst) (h_definitions hst) = definitions st /\
  refs_within h0 (h_values hst) (h_definitions hst) /\
  length h0 <= h_values hst /\
  take (length h0) (heap_of hst) = h0.

End Store.

(** ** qualitative_variables.py *)

Module QualitativeVariables.

(** The header pattern of this module: the qualitative kinds, under
    the name the source gives it, and a colon right after the closing
    parenthesis. *)
Definition P_QUANTITATIVE : regex :=
  [ Rep (not_char "(") 1 None (Some "name");
    Lit "(";
    Alt ["Nominal"; "Ordinal"] (Some "kind");
    Lit ")"; Lit ":" ].

Definition P_VALUE : regex :=
  [ Rep (is_char SP) 7 (Some 7) None;
    Rep (not_char TAB) 1 None (Some "value");
    Lit TAB ].

Definition step (st : state) (line : string) : option state :=
  if is_blank line then Some st
  else
    st1 ←
      (if in_definition st then
         match re_match P_VALUE line with
         | Some m =>
             v ← group m "value";
             Some {| definitions := definitions st;
                     in_definition := in_definition st;
                     values := values st ++ [strip v];
                     name := name st; kind := kind st |}
         | None =>
             n ← name st; k ← kind st;
             let definition : gmap string value :=
               {[ "name" := PStr n; "kind" := PStr k;
                  "values" := PList (values st) ]} in
             Some {| definitions := definitions st ++ [definition];
                     in_definition := false; values := [];
                     name := name st; kind := kind st |}
         end
       else Some st);
    if in_definition st1 then Some st1
    else
      match re_match P_QUANTITATIVE line with
      | Some m =>
          n ← group m "name"; k ← group m "kind";
          Some {| definitions := definitions st1; in_definition := true;
                  values := values st1;
                  name := Some (strip n); kind := Some (strip k) |}
      | None => Some st1
      end.

Definition parse_lines (lines : list string) : option (list (gmap string value)) :=
  st ← loop step init lines; Some (definitions st).

Definition parse_definitions (contents : string) : option (list (gmap string value)) :=
  parse_lines (readlines contents).

End QualitativeVariables.

(** ** utils.py *)

Module Utils.

(** [collections.OrderedDict] with string keys: the items in insertion
    order, every key once. *)
Abbreviation ordered_dict A := (list (string * A)).

(** [od[k] = v]: a key that is present keeps its place. *)
Fixpoint od_set {A} (k : string) (v : A) (od : ordered_dict A) : ordered_dict A :=
  match od with
  | [] => [(k, v)]
  | (k', v') :: od' =>
      if decide (k = k') then (k, v) :: od' else (k', v') :: od_set k v od'
  end.

Fixpoint od_get {A} (k : string) (od : ordered_dict A) : option A :=
  match od with
  | [] => None
  | (k', v') :: od' => if decide (k = k') then Some v' else od_get k od'
  end.

(** [OrderedDict(pairs)], on top of the items [od]; a list is not
    hashable and cannot be a key ([None]). *)
Fixpoint od_update {A} (od : ordered_dict A) (pairs : list (value * A))
    : option (ordered_dict A) :=
  match pairs with
  | [] => Some od
  | (PStr k, v) :: pairs' => od_update (od_set k v od) pairs'
  | (PList _, _) :: _ => None
  end.

(** The inner function of [load_variables]; a missing key is a
    [KeyError] ([None]). *)
Definition make_pair (definition : gmap string value)
    : option (value * gmap string value) :=
  name ← definition !! "name";
  kind ← definition !! "kind";
  let attrs : gmap string value := {[ "kind" := kind ]} in
  let attrs :=
    match definition !! "values" with
    | Some vs => <["values" := vs]> attrs
    | None => attrs
    end in
  Some (name, attrs).

(** [load_variables(path)], for a file at [path] whose JSON contents
    are the list [definitions]. *)
Definition load_variables (definitions : list (gmap string value))
    : option (ordered_dict (gmap string value)) :=
  pairs ← mapM make_pair definitions;
  od_update [] pairs.

Definition is_qualitative (attrs : gmap string value) : option bool :=
  kind ← attrs !! "kind";
  Some (bool_decide (kind ∈ [PStr "Nominal"; PStr "Ordinal"])).

Definition is_quantitative (attrs : gmap string value) : option bool :=
  kind ← attrs !! "kind";
  Some (bool_decide (kind ∈ [PStr "Discrete"; PStr "Continuous"])).

(** What the loader is to do with a definition [d]: the record [a]
    has the kind of [d] and, exactly when [d] has values, its values,
    and nothing else. *)
Definition is_attrs (d a : gmap string value) : Prop :=
  forall key, a !! key =
    if decide (key = "kind" \/ key = "values") then d !! key else None.

(** The item of the mapping that stands for [d]. *)
Definition loaded (d : gmap string value) (item : string * gmap string value) : Prop :=
  d !! "name" = Some (PStr item.1) /\ is_attrs d item.2.

(** A definition with a string for its name, and a kind. *)
Definition named (d : gmap string value) : Prop :=
  exists n k, d !! "name" = Some (PStr n) /\ d !! "kind" = Some k.

(** The last element of a list that passes a test. *)
Fixpoint last_where {A} (p : A -> bool) (l : list A) : option A :=
  match l with
  | [] => None
  | x :: l' =>
      match last_where p l' with
      | Some y => Some y
      | None => if p x then Some x else None
      end
  end.

(** The last definition of the name [n]. *)
Definition last_named (n : string) (defs : list (gmap string value))
    : option (gmap string value) :=
  last_where (fun d => bool_decide (d !! "name" = Some (PStr n))) defs.

(** A definition file with the same name twice. *)
Definition twice : list (gmap string value) :=
  [ {[ "name" := PStr "A"; "kind" := PStr "Nominal"; "values" := PList ["x"] ]};
    {[ "name" := PStr "A"; "kind" := PStr "Discrete" ]} ].

(** The elements of a list without repetition, each at the place where
    it occurs first. *)
Fixpoint first_occurrences (l : list string) : list string :=
  match l with
  | [] => []
  | x :: l' => x :: filter (fun y => y <> x) (first_occurrences l')
  end.

(** The names of the definitions, in their order. *)
Definition names_of (defs : list (gmap string value)) : list string :=
  omap (fun d : gmap string value =>
          match d !! "name" with
          | Some (PStr n) => Some n
          | _ => None
          end) defs.

End Utils.

(** ** Direct readings of the patterns

    What the three patterns compute, written without the matcher; the
    facts below show that the matcher agrees. *)

Module Text.

Fixpoint take_while (cls : ascii -> bool) (s : string) : string :=
  match s with
  | String a s' => if cls a then String a (take_while cls s') else EmptyString
  | EmptyString => EmptyString
  end.

Fixpoint drop_while (cls : ascii -> bool) (s : string) : string :=
  match s with
  | String a s' => if cls a then drop_while cls s' else s
  | EmptyString => EmptyString
  end.

Fixpoint all_chars (cls : ascii -> bool) (s : string) : bool :=
  match s with
  | String a s' => cls a && all_chars cls s'
  | EmptyString => true
  end.

(** The position of the first occurrence of [c]. *)
Fixpoint find_char (c : ascii) (s : string) : option nat :=
  match s with
  | String a s' => if Ascii.eqb a c then Some 0 else S <$> find_char c s'
  | EmptyString => None
  end.

(** Exactly [j] characters of the class, and the rest. *)
Fixpoint strip_class (cls : ascii -> bool) (j : nat) (s : string) : option string :=
  match j, s with
  | 0, _ => Some s
  | S j', String a s' => if cls a then strip_class cls j' s' else None
  | S _, EmptyString => None
  end.

(** The text of the group [value] when [P_VALUE] matches: seven
    spaces, then the text up to the first tab, which is not empty. *)
Definition value_of (line : string) : option string :=
  rest ← strip_class (is_char SP) 7 line;
  match drop_while (not_char TAB) rest with
  | String _ _ =>
      let v := take_while (not_char TAB) rest in
      if 1 <=? String.length v then Some v else None
  | EmptyString => None
  end.

(** The same reading, in positions: the first seven characters are
    spaces and the first tab stands further than position 7; the text
    between position 7 and that tab. *)
Definition is_value_line (line : string) : bool :=
  String.prefix "       " line &&
  match find_char TAB line with
  | Some i => 7 <? i
  | None => false
  end.

Definition value_text (line : string) : string :=
  match find_char TAB line with
  | Some i => String.substring 7 (i - 7) line
  | None => EmptyString
  end.

(** What may follow the kind in a header: [\)\s*:] when [ws], [\):]
    otherwise. *)
Definition header_tail (ws : bool) (s : string) : bool :=
  match s with
  | String a s' =>
      Ascii.eqb a ")" &&
      match (if ws then drop_while isspace s' else s') with
      | String b _ => Ascii.eqb b ":"
      | EmptyString => false
      end
  | EmptyString => false
  end.

(** The texts of the groups [name] and [kind] when a header pattern
    matches, for the kinds [words] and what may follow them, [tail]:
    the text before the first parenthesis, which is not empty, and the
    first of the kinds that stands after it and is followed by the
    tail. *)
Definition header_of (tail : string -> bool) (words : list string) (line : string)
    : option (string * string) :=
  let n := take_while (not_char "(") line in
  match drop_while (not_char "(") line with
  | String _ rest =>
      if 1 <=? String.length n then
        first_some
          (fun w => match strip_prefix w rest with
                    | Some r => if tail r then Some (n, w) else None
                    | None => None
                    end)
          words
      else None
  | EmptyString => None
  end.

Definition qualitative_kinds : list string := ["Nominal"; "Ordinal"].
Definition quantitative_kinds : list string := ["Discrete"; "Continuous"].

(** The shape of a header line: a text without parenthesis, a kind in
    parentheses, white space, a colon, anything. *)
Definition header_line (name_text w ws trailing : string) : string :=
  name_text +:+ String "(" (w +:+ String ")" (ws +:+ String ":" trailing)).

(** The same text with ["\r\n"] for every ["\n"]. *)
Fixpoint to_crlf (s : string) : string :=
  match s with
  | EmptyString => EmptyString
  | String a s' =>
      if Ascii.eqb a LF then String CR (String LF (to_crlf s'))
      else String a (to_crlf s')
  end.

End Text.

Import Text.

(** ** The transitions of the scanner, named *)

Module Trans.

(** The two shapes of emitted record. *)
Definition qualitative_definition (n k : string) (vs : list string)
    : gmap string value :=
  {[ "name" := PStr n; "kind" := PStr k; "values" := PList vs ]}.

Definition quantitative_definition (n k : string) : gmap string value :=
  {[ "name" := PStr n; "kind" := PStr k ]}.

(** [values.append(v)] *)
Definition push_value (st : state) (v : string) : state :=
  {| definitions := definitions st; in_definition := true;
     values := values st ++ [v]; name := name st; kind := kind st |}.

(** Several [values.append(v)]. *)
Definition push_values (st : state) (vs : list string) : state :=
  {| definitions := definitions st; in_definition := true;
     values := values st ++ vs; name := name st; kind := kind st |}.

(** The end of the open definition [n], [k]. *)
Definition close (st : state) (n k : string) : state :=
  {| definitions := definitions st ++ [qualitative_definition n k (values st)];
     in_definition := false; values := [];
     name := name st; kind := kind st |}.

(** What a line is to a scanner that has no definition open. *)
Inductive event :=
| Ignored
| Opens (n k : string)
| Quantitative (n k : string).

Definition apply_event (e : event) (st : state) : state :=
  match e with
  | Ignored => st
  | Opens n k =>
      {| definitions := definitions st; in_definition := true;
         values := values st; name := Some n; kind := Some k |}
  | Quantitative n k =>
      {| definitions := definitions st ++ [quantitative_definition n k];
         in_definition := in_definition st; values := values st;
         name := Some n; kind := Some k |}
  end.

(** The records an event emits. *)
Definition emitted (e : event) : list (gmap string value) :=
  match e with
  | Quantitative n k => [quantitative_definition n k]
  | _ => []
  end.

(** The states the loop can be in: [name] and [kind] are bound while
    a definition is open, and [values] is empty while none is. *)
Definition wf (st : state) : Prop :=
  if in_definition st then is_Some (name st) /\ is_Some (kind st)
  else values st = [].

(** Two states from which the loop goes on alike: the variables that
    are read before they are written are equal. *)
Definition agree (st1 st2 : state) : Prop :=
  in_definition st1 = in_definition st2 /\ values st1 = values st2 /\
  (in_definition st1 = true -> name st1 = name st2 /\ kind st1 = kind st2).

(** The value a line adds to an open definition, if any. *)
Definition line_value (line : string) : option string :=
  if is_blank line then None else strip <$> value_of line.

(** A line that leaves an open definition open. *)
Definition continues (line : string) : bool :=
  is_blank line || bool_decide (is_Some (value_of line)).

(** The same two notions, read off the loop body: the line is blank
    or [P_VALUE] matches it; the stripped text of the group [value]. *)
Definition keeps_open (line : string) : bool :=
  is_blank line || bool_decide (is_Some (re_match ParseVariables.P_VALUE line)).

Definition added_value (line : string) : option string :=
  if is_blank line then None
  else m ← re_match ParseVariables.P_VALUE line;
       v ← group m "value"; Some (strip v).

(** What [parse_variables] makes of a line when no definition is
    open. *)
Definition pv_event (line : string) : event :=
  match header_of (header_tail true) qualitative_kinds line,
        header_of (header_tail true) quantitative_kinds line with
  | _, Some (n, k) => Quantitative (strip n) (strip k)
  | Some (n, k), None => Opens (strip n) (strip k)
  | None, None => Ignored
  end.

(** What [qualitative_variables] makes of it. *)
Definition qv_event (line : string) : event :=
  match header_of (header_tail false) qualitative_kinds line with
  | Some (n, k) => Opens (strip n) (strip k)
  | None => Ignored
  end.

(** A record is of one of the two shapes that its kind decides. *)
Definition record_by_kind (d : gmap string value) : Prop :=
  exists k, d !! "kind" = Some (PStr k) /\
    ((k ∈ qualitative_kinds /\ exists vs, d !! "values" = Some (PList vs)) \/
     (k ∈ quantitative_kinds /\ d !! "values" = None)).

(** The kind an event carries is of the sort of that event. *)
Definition event_by_kind (e : event) : Prop :=
  match e with
  | Ignored => True
  | Opens _ k => k ∈ qualitative_kinds
  | Quantitative _ k => k ∈ quantitative_kinds
  end.

(** The records emitted so far keep to their kinds, and so will the
    one that is open. *)
Definition kinds_inv (st : state) : Prop :=
  Forall record_by_kind (definitions st) /\
  (in_definition st = true ->
   exists k, kind st = Some k /\ k ∈ qualitative_kinds).

(** The loop of a body [step], from the state before the first line, to
    the list it returns. *)
Definition scan (step : state -> string -> option state) (lines : list string)
    : option (list (gmap string value)) :=
  st ← loop step init lines; Some (definitions st).

(** Where a returned qualitative record comes from: a header [h] that
    was read as a header, the lines [vs] that kept its definition open,
    and the line [t] that closed it; its values are those of [vs], in
    their order. *)
Definition from_header (step : state -> string -> option state)
    (classify : string -> event) (lines : list string)
    (d : gmap string value) : Prop :=
  exists pre h vs t post st n k,
    lines = pre ++ h :: vs ++ t :: post /\
    loop step init pre = Some st /\
    is_blank h = false /\
    (in_definition st = true -> value_of h = None) /\
    classify h = Opens n k /\
    Forall (fun l => continues l = true) vs /\
    is_blank t = false /\ value_of t = None /\
    d = qualitative_definition n k (omap line_value vs).

(** Where a returned quantitative record comes from: a line that is a
    quantitative header. *)
Definition from_quantitative (classify : string -> event) (lines : list string)
    (d : gmap string value) : Prop :=
  exists l n k, l ∈ lines /\ classify l = Quantitative n k /\
    d = quantitative_definition n k.

(** The open definition, on the lines read so far. *)
Definition open_since (step : state -> string -> option state)
    (classify : string -> event) (lines : list string) (st : state) : Prop :=
  exists pre h vs st0 n k,
    lines = pre ++ h :: vs /\
    loop step init pre = Some st0 /\
    is_blank h = false /\
    (in_definition st0 = true -> value_of h = None) /\
    classify h = Opens n k /\
    Forall (fun l => continues l = true) vs /\
    values st = omap line_value vs /\
    name st = Some n /\ kind st = Some k.

(** Every record of the state, and the definition that is open, can be
    traced to the lines read so far. *)
Definition traced (step : state -> string -> option state)
    (classify : string -> event) (ls : list string) (st : state) : Prop :=
  Forall (fun d => from_quantitative classify ls d \/ from_header step classify ls d)
    (definitions st) /\
  (in_definition st = true -> open_since step classify ls st).

(** The sources of the records of [parse_variables], read off its
    patterns. *)
Definition pv_from_header (lines : list string) (d : gmap string value) : Prop :=
  exists pre h vs t post st m n k,
    lines = pre ++ h :: vs ++ t :: post /\
    loop ParseVariables.step init pre = Some st /\
    is_blank h = false /\
    (in_definition st = true -> re_match ParseVariables.P_VALUE h = None) /\
    re_match ParseVariables.P_QUALITATIVE h = Some m /\
    group m "name" = Some n /\ group m "kind" = Some k /\
    Forall (fun l => keeps_open l = true) vs /\
    is_blank t = false /\ re_match ParseVariables.P_VALUE t = None /\
    d = qualitative_definition (strip n) (strip k) (omap added_value vs).

Definition pv_from_quantitative (lines : list string) (d : gmap string value) : Prop :=
  exists l m n k,
    l ∈ lines /\
    re_match ParseVariables.P_QUANTITATIVE l = Some m /\
    group m "name" = Some n /\ group m "kind" = Some k /\
    d = quantitative_definition (strip n) (strip k).

(** ** Counting and projecting *)

(** An event that is a header. *)
Definition is_header_event (e : event) : bool :=
  match e with
  | Ignored => false
  | _ => true
  end.

(** The number of lines that a scanner with no definition open would
    read as headers. *)
Definition header_count (classify : string -> event) (lines : list string) : nat :=
  length (filter (fun l => is_header_event (classify l) = true) lines).

(** One for the definition that is open, if any. *)
Definition pending (st : state) : nat :=
  if in_definition st then 1 else 0.

(** The record has a [values] key. *)
Definition has_values (d : gmap string value) : bool :=
  bool_decide (is_Some (d !! "values")).

(** A line that a header pattern of the module matches. *)
Definition pv_is_header (line : string) : bool :=
  bool_decide (is_Some (re_match ParseVariables.P_QUALITATIVE line)) ||
  bool_decide (is_Some (re_match ParseVariables.P_QUANTITATIVE line)).

Definition qv_is_header (line : string) : bool :=
  bool_decide (is_Some (re_match QualitativeVariables.P_QUANTITATIVE line)).

(** The state of [qualitative_variables] beside the state of
    [parse_variables] on the same lines: the same open definition, and
    of the records of the latter those that have values. *)
Definition projects (pv qv : state) : Prop :=
  in_definition pv = in_definition qv /\ values pv = values qv /\
  (in_definition pv = true -> name pv = name qv /\ kind pv = kind qv) /\
  definitions qv = filter (fun d => has_values d = true) (definitions pv).

(** The source of a record of [qualitative_variables], read off its
    patterns. *)
Definition qv_from_header (lines : list string) (d : gmap string value) : Prop :=
  exists pre h vs t post st m n k,
    lines = pre ++ h :: vs ++ t :: post /\
    loop QualitativeVariables.step init pre = Some st /\
    is_blank h = false /\
    (in_definition st = true -> re_match QualitativeVariables.P_VALUE h = None) /\
    re_match QualitativeVariables.P_QUANTITATIVE h = Some m /\
    group m "name" = Some n /\ group m "kind" = Some k /\
    k ∈ qualitative_kinds /\
    Forall (fun l => keeps_open l = true) vs /\
    is_blank t = false /\ re_match QualitativeVariables.P_VALUE t = None /\
    d = qualitative_definition (strip n) k (omap added_value vs).

(** A string without white space at either end. *)
Definition trimmed (s : string) : Prop :=
  (forall a r, s = String a r -> isspace a = false) /\
  (forall r a, s = r +:+ String a EmptyString -> isspace a = false).

(** Every string of the record is trimmed. *)
Definition record_trimmed (d : gmap string value) : Prop :=
  forall key,
    match d !! key with
    | Some (PStr s) => trimmed s
    | Some (PList vs) => Forall trimmed vs
    | None => True
    end.

(** The two shapes of record, with a kind of their sort. *)
Definition record_shape (d : gmap string value) : Prop :=
  (exists n k vs, k ∈ qualitative_kinds /\ d = qualitative_definition n k vs) \/
  (exists n k, k ∈ quantitative_kinds /\ d = quantitative_definition n k).

(** What the classifiers of [utils] say of a record that is of exactly
    one sort. *)
Definition classified (attrs : gmap string value) : Prop :=
  (Utils.is_qualitative attrs = Some true /\
   Utils.is_quantitative attrs = Some false /\
   exists vs, attrs !! "values" = Some (PList vs)) \/
  (Utils.is_qualitative attrs = Some false /\
   Utils.is_quantitative attrs = Some true /\
   attrs !! "values" = None).

End Trans.

Import Trans.

(** ** The same transitions, on the state with the heap *)

Module StoreTrans.
Import Store.

(** [values.append(v)]: the list is changed where it is. *)
Definition h_push_value (st : hstate) (vs : list string) (v : string) : hstate :=
  {| heap_of := <[h_values st := vs ++ [v]]> (heap_of st);
     h_definitions := h_definitions st; h_in_definition := true;
     h_values := h_values st; h_name := h_name st; h_kind := h_kind st |}.

(** The record takes the list, and [values = []] is a new list. *)
Definition h_close (st : hstate) (n k : string) : hstate :=
  {| heap_of := heap_of st ++ [[]];
     h_definitions := h_definitions st ++
       [{[ "name" := HStr n; "kind" := HStr k; "values" := HRef (h_values st) ]}];
     h_in_definition := false;
     h_values := length (heap_of st);
     h_name := h_name st; h_kind := h_kind st |}.

Definition h_apply_event (e : event) (st : hstate) : hstate :=
  match e with
  | Ignored => st
  | Opens n k =>
      {| heap_of := heap_of st; h_definitions := h_definitions st;
         h_in_definition := true; h_values := h_values st;
         h_name := Some n; h_kind := Some k |}
  | Quantitative n k =>
      {| heap_of := heap_of st;
         h_definitions := h_definitions st ++
           [{[ "name" := HStr n; "kind" := HStr k ]}];
         h_in_definition := h_in_definition st; h_values := h_values st;
         h_name := Some n; h_kind := Some k |}
  end.

(** The lists that the records hold, in the order of the records. *)
Definition record_refs (ds : list (gmap string hvalue)) : list nat :=
  omap (fun d : gmap string hvalue =>
          match d !! "values" with
          | Some (HRef r) => Some r
          | _ => None
          end) ds.

End StoreTrans.

(** ** The inputs of the scenarios *)

Module Scenario.

Definition nl : string := String LF EmptyString.
Definition tab : string := String TAB EmptyString.

(** ["Foo (Nominal):\n       A\tdesc\n       B\tdesc\n"] *)
Definition scenario1 : string :=
  "Foo (Nominal):" +:+ nl +:+
  "       A" +:+ tab +:+ "desc" +:+ nl +:+
  "       B" +:+ tab +:+ "desc" +:+ nl.

(** ["Foo (Nominal):\n       A\tx\nBar (Discrete): y\n"] *)
Definition scenario3 : string :=
  "Foo (Nominal):" +:+ nl +:+
  "       A" +:+ tab +:+ "x" +:+ nl +:+
  "Bar (Discrete): y" +:+ nl.

(** A quantitative header, a qualitative header, then value lines and
    a blank line, and nothing after them. *)
Definition open_pre : list string := ["Bar (Discrete): y" +:+ nl].
Definition open_header : string := "Foo (Nominal):" +:+ nl.
Definition open_values : list string :=
  ["       A" +:+ tab +:+ "x" +:+ nl; nl; "       B" +:+ tab +:+ "x" +:+ nl].

(** The groups of [open_header]. *)
Definition open_groups : gmap string string :=
  <["kind" := "Nominal"]> {[ "name" := "Foo " ]}.

End Scenario.

Import Scenario.

(** * Facts about the strings and the matcher *)

Module StrFacts.

Lemma str_app_cons a s t : String a s +:+ t = String a (s +:+ t).
Proof. reflexivity. Qed.

Lemma str_app_empty_l t : EmptyString +:+ t = t.
Proof. reflexivity. Qed.

Lemma str_app_assoc s t u : (s +:+ t) +:+ u = s +:+ t +:+ u.
Proof. induction s as [|a s IH]; [reflexivity|]. rewrite !str_app_cons. by f_equal. Qed.

Lemma str_app_length s t : String.length (s +:+ t) = String.length s + String.length t.
Proof. induction s as [|a s IH]; [reflexivity|]. rewrite str_app_cons. simpl. by f_equal. Qed.

Lemma take_drop_while cls s : take_while cls s +:+ drop_while cls s = s.
Proof.
  induction s as [|a s IH]; [reflexivity|]. simpl.
  destruct (cls a); [|reflexivity]. rewrite str_app_cons. by f_equal.
Qed.

Lemma all_chars_take_while cls s : all_chars cls (take_while cls s) = true.
Proof.
  induction s as [|a s IH]; [reflexivity|]. simpl.
  destruct (cls a) eqn:E; [|reflexivity]. simpl. by rewrite E.
Qed.

Lemma drop_while_head cls s a r : drop_while cls s = String a r -> cls a = false.
Proof.
  induction s as [|b s IH]; [discriminate|]. simpl.
  destruct (cls b) eqn:E; [exact IH|]. intros [= -> _]. exact E.
Qed.

Lemma take_while_app cls p a r :
  all_chars cls p = true -> cls a = false ->
  take_while cls (p +:+ String a r) = p.
Proof.
  intros Hp Ha. induction p as [|b p IH].
  - rewrite str_app_empty_l. simpl. by rewrite Ha.
  - simpl in Hp. apply andb_prop in Hp as [Hb Hp].
    rewrite str_app_cons. simpl. rewrite Hb. f_equal. by apply IH.
Qed.

Lemma drop_while_app cls p a r :
  all_chars cls p = true -> cls a = false ->
  drop_while cls (p +:+ String a r) = String a r.
Proof.
  intros Hp Ha. induction p as [|b p IH].
  - rewrite str_app_empty_l. simpl. by rewrite Ha.
  - simpl in Hp. apply andb_prop in Hp as [Hb Hp].
    rewrite str_app_cons. simpl. rewrite Hb. by apply IH.
Qed.

Lemma take_length_app p r : str_take (String.length p) (p +:+ r) = p.
Proof. induction p as [|a p IH]; [by destruct r|]. rewrite str_app_cons. simpl. by f_equal. Qed.

Lemma take_take_while cls s : str_take (String.length (take_while cls s)) s = take_while cls s.
Proof.
  rewrite <- (take_drop_while cls s) at 2. apply take_length_app.
Qed.

Lemma strip_prefix_app w r : strip_prefix w (w +:+ r) = Some r.
Proof.
  induction w as [|a w IH]; [reflexivity|]. rewrite str_app_cons. simpl.
  by rewrite Ascii.eqb_refl.
Qed.

Lemma strip_prefix_Some w s r : strip_prefix w s = Some r -> s = w +:+ r.
Proof.
  revert s. induction w as [|a w IH]; intros s; simpl.
  - by intros [= ->].
  - destruct s as [|b s]; [discriminate|].
    destruct (Ascii.eqb a b) eqn:E; [|discriminate].
    apply Ascii.eqb_eq in E as ->. intros H%IH. rewrite str_app_cons. by f_equal.
Qed.

Lemma strip_class_is_char c w line :
  all_chars (is_char c) w = true ->
  strip_class (is_char c) (String.length w) line = strip_prefix w line.
Proof.
  revert line. induction w as [|a w IH]; intros line Hw; [done|].
  simpl in Hw. apply andb_prop in Hw as [Ha Hw].
  apply Ascii.eqb_eq in Ha as ->.
  destruct line as [|b line]; [done|]. simpl.
  unfold is_char at 1. rewrite (Ascii.eqb_sym b c).
  destruct (Ascii.eqb c b); [by apply IH|done].
Qed.

Lemma prefix_strip_prefix w line :
  String.prefix w line = bool_decide (is_Some (strip_prefix w line)).
Proof.
  revert line. induction w as [|a w IH]; intros line.
  { by destruct line. }
  destruct line as [|b line]; [done|]. simpl.
  destruct (ascii_dec a b) as [->|Hne].
  - rewrite Ascii.eqb_refl. apply IH.
  - apply Ascii.eqb_neq in Hne. by rewrite Hne.
Qed.

Lemma find_char_span c s :
  find_char c s =
  match drop_while (not_char c) s with
  | EmptyString => None
  | String _ _ => Some (String.length (take_while (not_char c) s))
  end.
Proof.
  induction s as [|a s IH]; [done|]. simpl. unfold not_char at 1 3.
  destruct (Ascii.eqb a c); simpl; [done|].
  rewrite IH. by destruct (drop_while (not_char c) s).
Qed.

Lemma find_char_app c w s :
  all_chars (not_char c) w = true ->
  find_char c (w +:+ s) = (fun i => String.length w + i) <$> find_char c s.
Proof.
  intros Hw. induction w as [|a w IH].
  { rewrite str_app_empty_l. by destruct (find_char c s). }
  simpl in Hw. apply andb_prop in Hw as [Ha Hw]. unfold not_char in Ha.
  apply negb_true_iff in Ha. rewrite str_app_cons. simpl. rewrite Ha, (IH Hw).
  by destruct (find_char c s).
Qed.

Lemma substring_0 m s : String.substring 0 m s = str_take m s.
Proof.
  revert s. induction m as [|m IH]; intros [|a s]; simpl; try done.
  by rewrite IH.
Qed.

Lemma substring_app w m s :
  String.substring (String.length w) m (w +:+ s) = String.substring 0 m s.
Proof. induction w as [|a w IH]; [done|]. rewrite str_app_cons. exact IH. Qed.

(** The two readings of the value pattern agree. *)
Lemma value_of_positions line :
  value_of line = if is_value_line line then Some (value_text line) else None.
Proof.
  unfold value_of, is_value_line, value_text.
  change 7 with (String.length "       ") at 1.
  rewrite strip_class_is_char, prefix_strip_prefix by done.
  destruct (strip_prefix "       " line) as [rest|] eqn:E; [|done].
  apply strip_prefix_Some in E as ->. cbn [mbind option_bind].
  rewrite bool_decide_eq_true_2 by eauto. cbn [andb].
  rewrite find_char_app, find_char_span by done.
  destruct (drop_while (not_char TAB) rest) as [|a rest']; [done|].
  cbn [fmap option_fmap option_map].
  set (v := take_while (not_char TAB) rest).
  change (String.length "       ") with 7.
  replace (7 + String.length v - 7) with (String.length v) by lia.
  change 7 with (String.length "       ") at 3.
  rewrite substring_app, substring_0. unfold v. rewrite take_take_while.
  fold v. by destruct (String.length v).
Qed.

End StrFacts.

Import StrFacts.

Module ReFacts.

(** A greedy repetition without upper bound, followed by a literal
    that is not in its class, takes the longest run: giving back a
    character cannot help, the literal would face a character of the
    class. *)
Lemma rep_longest {R} cls lo (k : nat -> string -> option R) :
  (forall n a s, cls a = true -> k n (String a s) = None) ->
  forall s n,
    rep cls lo None k n s =
    if lo <=? n + String.length (take_while cls s)
    then k (n + String.length (take_while cls s)) (drop_while cls s)
    else None.
Proof.
  intros Hk. induction s as [|a s IH]; intros n; simpl.
  - by rewrite Nat.add_0_r.
  - destruct (cls a) eqn:Ha; simpl.
    + rewrite IH. replace (S n + String.length (take_while cls s))
        with (n + S (String.length (take_while cls s))) by lia.
      assert (Hstop : (if lo <=? n then k n (String a s) else None) = None)
        by (destruct (lo <=? n); [by apply Hk|done]).
      rewrite Hstop. clear Hstop.
      destruct (lo <=? n + _); [|done]. by destruct (k _ _).
    + by rewrite Nat.add_0_r.
Qed.

Lemma match_here_rep cls lo hi grp r s g :
  match_here (Rep cls lo hi grp :: r) s g =
  rep cls lo hi (fun n rest => match_here r rest (capture grp (str_take n s) g)) 0 s.
Proof. reflexivity. Qed.

Lemma match_rep_lit cls lo grp c r s g :
  cls c = false ->
  match_here (Rep cls lo None grp :: Lit c :: r) s g =
  match drop_while cls s with
  | String a rest =>
      if Ascii.eqb a c && (lo <=? String.length (take_while cls s))
      then match_here r rest (capture grp (take_while cls s) g)
      else None
  | EmptyString => None
  end.
Proof.
  intros Hc. cbn [match_here]. rewrite rep_longest.
  - simpl. destruct (lo <=? _); [|by destruct (drop_while cls s) as [|a ?]; [|destruct (Ascii.eqb a c)]].
    rewrite take_take_while. destruct (drop_while cls s) as [|a rest]; [done|].
    by rewrite andb_true_r.
  - intros n a s' Ha. destruct (Ascii.eqb a c) eqn:E; [|done].
    apply Ascii.eqb_eq in E as ->. congruence.
Qed.

Lemma rep_exact {R} cls m (k : nat -> string -> option R) :
  forall j n s, n + j = m ->
    rep cls m (Some m) k n s =
    match strip_class cls j s with
    | Some rest => k m rest
    | None => None
    end.
Proof.
  induction j as [|j IH]; intros n s Hn.
  - assert (n = m) as -> by lia. 
    destruct s as [|a s]; simpl; rewrite Nat.leb_refl; [done|].
    rewrite Nat.ltb_irrefl, andb_false_r. done.
  - destruct s as [|a s]; simpl.
    + destruct (m <=? n) eqn:E; [apply Nat.leb_le in E; lia|done].
    + assert ((m <=? n) = false) as -> by (apply Nat.leb_gt; lia).
      destruct (cls a); simpl; [|done].
      assert ((n <? m) = true) as -> by (apply Nat.ltb_lt; lia).
      rewrite (IH (S n)) by lia. by destruct (strip_class cls j s) as [rest|]; [destruct (k m rest)|].
Qed.

Lemma match_P_VALUE line :
  re_match ParseVariables.P_VALUE line = (v ← value_of line; Some {[ "value" := v ]}).
Proof.
  unfold re_match, ParseVariables.P_VALUE, value_of.
  rewrite match_here_rep, (rep_exact _ 7 _ 7 0) by done.
  destruct (strip_class (is_char SP) 7 line) as [rest|]; [|done].
  cbv beta. rewrite match_rep_lit by done. cbn [mbind option_bind].
  destruct (drop_while (not_char TAB) rest) as [|a rest'] eqn:E; [done|].
  apply drop_while_head in E. unfold not_char in E.
  apply negb_false_iff in E. rewrite E. simpl.
  by destruct (String.length (take_while (not_char TAB) rest)).
Qed.

Lemma match_tail_ws r g :
  match_here [Lit ")"; Rep isspace 0 None None; Lit ":"] r g =
  if header_tail true r then Some g else None.
Proof.
  destruct r as [|a r]; [done|]. cbn [match_here header_tail].
  destruct (Ascii.eqb a ")"); [|done]. cbn [andb].
  change (rep _ _ _ _ _ _) with
    (match_here [Rep isspace 0 None None; Lit ":"] r g).
  rewrite match_rep_lit by done.
  destruct (drop_while isspace r) as [|b r']; [done|]. simpl.
  rewrite andb_true_r. by destruct (Ascii.eqb b ":").
Qed.

Lemma match_tail_plain r g :
  match_here [Lit ")"; Lit ":"] r g =
  if header_tail false r then Some g else None.
Proof.
  destruct r as [|a r]; [done|]. simpl.
  destruct (Ascii.eqb a ")"); [|done]. simpl.
  destruct r as [|b r']; [done|]. by destruct (Ascii.eqb b ":").
Qed.

Lemma match_header (tail : regex) (tl : string -> bool) words line :
  (forall r g, match_here tail r g = if tl r then Some g else None) ->
  re_match (Rep (not_char "(") 1 None (Some "name") :: Lit "("
            :: Alt words (Some "kind") :: tail) line =
  ('(n, w) ← header_of tl words line;
   Some (<["kind" := w]> {[ "name" := n ]})).
Proof.
  intros Htail. unfold re_match, header_of. rewrite match_rep_lit by done.
  destruct (drop_while (not_char "(") line) as [|a rest] eqn:E; [done|].
  apply drop_while_head in E. unfold not_char in E.
  apply negb_false_iff in E. rewrite E. cbn [andb].
  destruct (1 <=? _); [|done]. cbn [match_here capture].
  induction words as [|w words IH]; [done|]. simpl.
  destruct (strip_prefix w rest) as [r|]; [|exact IH].
  rewrite Htail. destruct (tl r); [done|exact IH].
Qed.

Lemma match_P_QUALITATIVE line :
  re_match ParseVariables.P_QUALITATIVE line =
  ('(n, w) ← header_of (header_tail true) qualitative_kinds line;
   Some (<["kind" := w]> {[ "name" := n ]})).
Proof. apply match_header, match_tail_ws. Qed.

Lemma match_P_QUANTITATIVE line :
  re_match ParseVariables.P_QUANTITATIVE line =
  ('(n, w) ← header_of (header_tail true) quantitative_kinds line;
   Some (<["kind" := w]> {[ "name" := n ]})).
Proof. apply match_header, match_tail_ws. Qed.

Lemma match_QV_header line :
  re_match QualitativeVariables.P_QUANTITATIVE line =
  ('(n, w) ← header_of (header_tail false) qualitative_kinds line;
   Some (<["kind" := w]> {[ "name" := n ]})).
Proof. apply match_header, match_tail_plain. Qed.

End ReFacts.

(** * The two loop bodies make the transitions of the scanner *)

Module StepFacts.

Lemma header_of_kind tl words line n w :
  header_of tl words line = Some (n, w) -> w ∈ words.
Proof.
  unfold header_of. destruct (drop_while _ line) as [|a rest]; [done|].
  destruct (1 <=? _); [|done].
  induction words as [|w0 words IH]; simpl; [done|].
  destruct (strip_prefix w0 rest) as [r|]; [destruct (tl r)|].
  - intros [= _ <-]. left.
  - intros H. right. by apply IH.
  - intros H. right. by apply IH.
Qed.

(** No line is a header of both sorts: after the first parenthesis
    stands at most one kind. *)
Lemma header_exclusive tl tl' line n w :
  header_of tl qualitative_kinds line = Some (n, w) ->
  header_of tl' quantitative_kinds line = None.
Proof.
  unfold header_of. destruct (drop_while _ line) as [|a rest]; [done|].
  destruct (1 <=? _); [|done].
  unfold qualitative_kinds, quantitative_kinds.
  destruct rest as [|b rest]; [done|]. cbn [first_some strip_prefix].
  destruct (Ascii.eqb_spec "D" b) as [<-|_]; [done|].
  destruct (Ascii.eqb_spec "C" b) as [<-|_]; done.
Qed.

Lemma pv_step_blank st l : is_blank l = true -> ParseVariables.step st l = Some st.
Proof. unfold ParseVariables.step. by intros ->. Qed.

Lemma pv_idle st l :
  in_definition st = false ->
  (st2 ←
     match re_match ParseVariables.P_QUALITATIVE l with
     | Some m =>
         n ← group m "name"; k ← group m "kind";
         Some {| definitions := definitions st; in_definition := true;
                 values := values st;
                 name := Some (strip n); kind := Some (strip k) |}
     | None => Some st
     end;
   match re_match ParseVariables.P_QUANTITATIVE l with
   | Some m =>
       n ← group m "name"; k ← group m "kind";
       let definition : gmap string value :=
         {[ "name" := PStr (strip n); "kind" := PStr (strip k) ]} in
       Some {| definitions := definitions st2 ++ [definition];
               in_definition := in_definition st2; values := values st2;
               name := Some (strip n); kind := Some (strip k) |}
   | None => Some st2
   end) = Some (apply_event (pv_event l) st).
Proof.
  intros Hi. rewrite ReFacts.match_P_QUALITATIVE, ReFacts.match_P_QUANTITATIVE.
  unfold pv_event.
  destruct (header_of _ qualitative_kinds l) as [[n w]|] eqn:Hq.
  - rewrite (header_exclusive _ (header_tail true) _ _ _ Hq). done.
  - destruct (header_of _ quantitative_kinds l) as [[n w]|]; [|done].
    simpl. by rewrite Hi.
Qed.

Lemma pv_step_value st l v :
  in_definition st = true -> is_blank l = false -> value_of l = Some v ->
  ParseVariables.step st l = Some (push_value st (strip v)).
Proof.
  intros Hi Hb Hv. unfold ParseVariables.step.
  rewrite Hb, Hi, ReFacts.match_P_VALUE, Hv. reflexivity.
Qed.

Lemma pv_step_close st l n k :
  in_definition st = true -> is_blank l = false -> value_of l = None ->
  name st = Some n -> kind st = Some k ->
  ParseVariables.step st l = Some (apply_event (pv_event l) (close st n k)).
Proof.
  intros Hi Hb Hv Hn Hk. unfold ParseVariables.step.
  rewrite Hb, Hi, ReFacts.match_P_VALUE, Hv.
  destruct st as [D i vs ? ?]; simpl in Hn, Hk; subst.
  cbn [mbind option_bind in_definition name kind].
  by rewrite (pv_idle _ l).
Qed.

Lemma pv_step_idle st l :
  in_definition st = false -> is_blank l = false ->
  ParseVariables.step st l = Some (apply_event (pv_event l) st).
Proof.
  intros Hi Hb. unfold ParseVariables.step. rewrite Hb, Hi.
  cbn [mbind option_bind]. rewrite Hi. by apply pv_idle.
Qed.

Lemma qv_step_blank st l : is_blank l = true -> QualitativeVariables.step st l = Some st.
Proof. unfold QualitativeVariables.step. by intros ->. Qed.

Lemma qv_idle st l :
  match re_match QualitativeVariables.P_QUANTITATIVE l with
  | Some m =>
      n ← group m "name"; k ← group m "kind";
      Some {| definitions := definitions st; in_definition := true;
              values := values st;
              name := Some (strip n); kind := Some (strip k) |}
  | None => Some st
  end = Some (apply_event (qv_event l) st).
Proof.
  rewrite ReFacts.match_QV_header. unfold qv_event.
  by destruct (header_of _ qualitative_kinds l) as [[n w]|].
Qed.

Lemma qv_step_value st l v :
  in_definition st = true -> is_blank l = false -> value_of l = Some v ->
  QualitativeVariables.step st l = Some (push_value st (strip v)).
Proof.
  intros Hi Hb Hv. unfold QualitativeVariables.step.
  change QualitativeVariables.P_VALUE with ParseVariables.P_VALUE.
  rewrite Hb, Hi, ReFacts.match_P_VALUE, Hv. reflexivity.
Qed.

Lemma qv_step_close st l n k :
  in_definition st = true -> is_blank l = false -> value_of l = None ->
  name st = Some n -> kind st = Some k ->
  QualitativeVariables.step st l = Some (apply_event (qv_event l) (close st n k)).
Proof.
  intros Hi Hb Hv Hn Hk. unfold QualitativeVariables.step.
  change QualitativeVariables.P_VALUE with ParseVariables.P_VALUE.
  rewrite Hb, Hi, ReFacts.match_P_VALUE, Hv.
  destruct st as [D i vs ? ?]; simpl in Hn, Hk; subst.
  cbn [mbind option_bind in_definition name kind].
  by rewrite (qv_idle _ l).
Qed.

Lemma qv_step_idle st l :
  in_definition st = false -> is_blank l = false ->
  QualitativeVariables.step st l = Some (apply_event (qv_event l) st).
Proof.
  intros Hi Hb. unfold QualitativeVariables.step. rewrite Hb, Hi.
  cbn [mbind option_bind]. rewrite Hi. by apply qv_idle.
Qed.

End StepFacts.

(** * The loop, for any body that makes the transitions of the scanner *)

Section Scanner.

Variable step : state -> string -> option state.
Variable classify : string -> event.

Hypothesis step_blank : forall st l, is_blank l = true -> step st l = Some st.
Hypothesis step_value : forall st l v,
  in_definition st = true -> is_blank l = false -> value_of l = Some v ->
  step st l = Some (push_value st (strip v)).
Hypothesis step_close : forall st l n k,
  in_definition st = true -> is_blank l = false -> value_of l = None ->
  name st = Some n -> kind st = Some k ->
  step st l = Some (apply_event (classify l) (close st n k)).
Hypothesis step_idle : forall st l,
  in_definition st = false -> is_blank l = false ->
  step st l = Some (apply_event (classify l) st).

Lemma wf_apply_event e st : in_definition st = false -> wf st -> wf (apply_event e st).
Proof.
  unfold wf. intros Hi. rewrite Hi. intros Hv.
  destruct e; simpl; rewrite ?Hi; eauto.
Qed.

Lemma step_wf st l : wf st -> exists st', step st l = Some st' /\ wf st'.
Proof.
  intros Hwf. destruct (is_blank l) eqn:Hb.
  { exists st. eauto. }
  destruct (in_definition st) eqn:Hi.
  - destruct (value_of l) as [v|] eqn:Hv.
    + eexists. split; [by eapply step_value|].
      unfold wf in *. rewrite Hi in Hwf. done.
    + unfold wf in Hwf. rewrite Hi in Hwf. destruct Hwf as [[n Hn] [k Hk]].
      eexists. split; [by eapply step_close|]. by apply wf_apply_event.
  - eexists. split; [by apply step_idle|]. by apply wf_apply_event.
Qed.

Lemma loop_app st l1 l2 :
  loop step st (l1 ++ l2) = st' ← loop step st l1; loop step st' l2.
Proof.
  revert st. induction l1 as [|l l1 IH]; intros st; simpl; [done|].
  destruct (step st l); simpl; [apply IH|done].
Qed.

Lemma loop_wf st ls : wf st -> exists st', loop step st ls = Some st' /\ wf st'.
Proof.
  revert st. induction ls as [|l ls IH]; intros st Hwf; simpl; [eauto|].
  destruct (step_wf st l Hwf) as (st1 & -> & Hwf1). simpl. by apply IH.
Qed.

Lemma loop_blank st l1 b l2 :
  is_blank b = true -> loop step st (l1 ++ b :: l2) = loop step st (l1 ++ l2).
Proof.
  intros Hb. rewrite !loop_app. destruct (loop step st l1) as [st'|]; [|done].
  simpl. by rewrite step_blank.
Qed.

Lemma loop_filter_blank st ls :
  loop step st (filter (fun l => is_blank l = false) ls) = loop step st ls.
Proof.
  revert st. induction ls as [|l ls IH]; intros st; [done|].
  rewrite filter_cons. destruct (is_blank l) eqn:Hb.
  - rewrite decide_False by done. simpl. by rewrite step_blank.
  - rewrite decide_True by done. simpl.
    destruct (step st l); simpl; [apply IH|done].
Qed.

Lemma push_values_nil st : in_definition st = true -> push_values st [] = st.
Proof. destruct st; simpl. intros ->. unfold push_values; simpl. by rewrite app_nil_r. Qed.

Lemma push_values_cons st v vs :
  push_values (push_value st v) vs = push_values st (v :: vs).
Proof. unfold push_values, push_value; simpl. by rewrite <- app_assoc. Qed.

(** Value lines and blank lines keep the definition open and only add
    values. *)
Lemma loop_continues st vs :
  in_definition st = true -> Forall (fun l => continues l = true) vs ->
  loop step st vs = Some (push_values st (omap line_value vs)).
Proof.
  intros Hi Hvs. revert st Hi.
  induction Hvs as [|l vs Hl _ IH]; intros st Hi; simpl.
  { by rewrite push_values_nil. }
  unfold continues, line_value in *. destruct (is_blank l) eqn:Hb.
  - rewrite step_blank by done. simpl. by apply IH.
  - simpl in Hl. apply bool_decide_eq_true in Hl as [v Hv].
    rewrite (step_value st l v), Hv by done. simpl.
    rewrite IH by done. by rewrite push_values_cons.
Qed.

(** The loop reads [definitions] only to append to it, and reads
    [name] and [kind] only while a definition is open. *)
Lemma step_agree st1 st2 l :
  wf st1 -> agree st1 st2 ->
  exists X st1' st2',
    step st1 l = Some st1' /\ step st2 l = Some st2' /\
    definitions st1' = definitions st1 ++ X /\
    definitions st2' = definitions st2 ++ X /\
    wf st1' /\ agree st1' st2'.
Proof.
  intros Hwf (Hi & Hv & Hnk). destruct (is_blank l) eqn:Hb.
  { exists [], st1, st2. rewrite !step_blank, !app_nil_r by done. done. }
  unfold wf in Hwf. destruct (in_definition st1) eqn:Hi1; symmetry in Hi.
  - destruct Hwf as [[n Hn] [k Hk]]. destruct (Hnk eq_refl) as [Hn2 Hk2].
    destruct (value_of l) as [v|] eqn:Hval.
    + exists [], (push_value st1 (strip v)), (push_value st2 (strip v)).
      rewrite !(step_value _ l v), !app_nil_r by done.
      repeat split; simpl; eauto; congruence.
    + exists (qualitative_definition n k (values st1) :: emitted (classify l)),
        (apply_event (classify l) (close st1 n k)),
        (apply_event (classify l) (close st2 n k)).
      rewrite (step_close st1 l n k), (step_close st2 l n k) by congruence.
      unfold close. rewrite <- Hv.
      destruct (classify l); simpl; rewrite <- ?app_assoc; by repeat split.
  - exists (emitted (classify l)), (apply_event (classify l) st1),
      (apply_event (classify l) st2).
    rewrite !step_idle by done.
    destruct (classify l); simpl; rewrite ?app_nil_r, ?Hi, ?Hi1;
      repeat split; try done; unfold wf; simpl; rewrite ?Hi1; eauto; congruence.
Qed.

Lemma loop_agree ls : forall st1 st2,
  wf st1 -> agree st1 st2 ->
  exists X st1' st2',
    loop step st1 ls = Some st1' /\ loop step st2 ls = Some st2' /\
    definitions st1' = definitions st1 ++ X /\
    definitions st2' = definitions st2 ++ X /\
    wf st1' /\ agree st1' st2'.
Proof.
  induction ls as [|l ls IH]; intros st1 st2 Hwf Hag; simpl.
  { exists [], st1, st2. by rewrite !app_nil_r. }
  destruct (step_agree st1 st2 l Hwf Hag) as (X & a & b & Hs1 & Hs2 & Ha & Hb & Hwf' & Hag').
  destruct (IH a b Hwf' Hag') as (Y & a' & b' & Hl1 & Hl2 & Ha' & Hb' & ? & ?).
  exists (X ++ Y), a', b'. rewrite Hs1, Hs2. simpl.
  rewrite Ha', Hb', Ha, Hb, !app_assoc. done.
Qed.

Lemma wf_init : wf init.
Proof. reflexivity. Qed.

Lemma scan_total ls : is_Some (scan step ls).
Proof.
  unfold scan. destruct (loop_wf init ls wf_init) as (st & -> & _). by eexists.
Qed.

(** From a state with no definition open, the loop returns what it
    had, then what it returns on these lines alone. *)
Lemma loop_idle st ls :
  wf st -> in_definition st = false ->
  exists X st', scan step ls = Some X /\ loop step st ls = Some st' /\
    definitions st' = definitions st ++ X.
Proof.
  intros Hwf Hi. assert (Hag : agree st init).
  { unfold wf in Hwf. rewrite Hi in Hwf. unfold agree. rewrite Hi. by repeat split. }
  destruct (loop_agree ls st init Hwf Hag) as (X & a & b & Ha & Hb & Hda & Hdb & _).
  exists X, a. unfold scan. rewrite Hb. simpl. by rewrite Hdb.
Qed.

(** A header read with no definition open, or read as the line that
    closes one, opens its definition with no value. *)
Lemma step_opens st h n k :
  wf st -> is_blank h = false ->
  (in_definition st = true -> value_of h = None) ->
  classify h = Opens n k ->
  exists st_h, step st h = Some st_h /\ in_definition st_h = true /\
    values st_h = [] /\ name st_h = Some n /\ kind st_h = Some k.
Proof.
  intros Hwf Hb Hnv Hc. unfold wf in Hwf. destruct (in_definition st) eqn:Hi.
  - destruct Hwf as [[n' Hn] [k' Hk]].
    rewrite (step_close st h n' k'), Hc by auto. eexists. by repeat split.
  - rewrite step_idle, Hc by done. eexists. by repeat split.
Qed.

(** The anatomy of a run around one qualitative definition: the lines
    [pre], its header [h], the lines [vs] that keep it open, and then
    either the end of the input, or a line [t] that closes it and the
    lines [post]. *)
Theorem scan_definition pre h vs st n k :
  loop step init pre = Some st -> is_blank h = false ->
  (in_definition st = true -> value_of h = None) ->
  classify h = Opens n k ->
  Forall (fun l => continues l = true) vs ->
  exists st_h, step st h = Some st_h /\ in_definition st_h = true /\
    scan step (pre ++ [h]) = Some (definitions st_h) /\
    scan step (pre ++ h :: vs) = Some (definitions st_h) /\
    forall t post, is_blank t = false -> value_of t = None ->
      exists X, scan step (t :: post) = Some X /\
        scan step (pre ++ h :: vs ++ t :: post) =
        Some (definitions st_h
              ++ qualitative_definition n k (omap line_value vs) :: X).
Proof.
  intros Hpre Hb Hnv Hc Hvs.
  destruct (loop_wf init pre wf_init) as (st' & Hpre' & Hwf).
  rewrite Hpre in Hpre'. injection Hpre' as <-.
  destruct (step_opens st h n k Hwf Hb Hnv Hc) as (st_h & Hh & Hi & Hv & Hn & Hk).
  exists st_h. split; [done|]. split; [done|].
  assert (Hrun : forall rest, loop step init (pre ++ h :: vs ++ rest) =
      loop step (push_values st_h (omap line_value vs)) rest).
  { intros rest. rewrite loop_app, Hpre. simpl. rewrite Hh. simpl.
    by rewrite loop_app, (loop_continues st_h vs Hi Hvs). }
  split; [|split].
  - unfold scan. rewrite loop_app, Hpre. simpl. by rewrite Hh.
  - unfold scan. rewrite <- (app_nil_r vs), Hrun. done.
  - intros t post Ht Htv.
    set (st_v := push_values st_h (omap line_value vs)).
    assert (Hwfc : wf (close st_v n k)) by done.
    destruct (loop_idle (close st_v n k) (t :: post) Hwfc eq_refl)
      as (X & st_e & HX & Hloop & Hdefs).
    exists X. split; [done|]. unfold scan. rewrite Hrun. fold st_v.
    simpl in Hloop. rewrite step_idle in Hloop by done. simpl in Hloop.
    simpl. rewrite (step_close st_v t n k) by done. simpl.
    rewrite Hloop. simpl. rewrite Hdefs. simpl.
    by rewrite Hv, <- app_assoc.
Qed.

Lemma record_by_kind_qualitative n k vs :
  k ∈ qualitative_kinds -> record_by_kind (qualitative_definition n k vs).
Proof. intros Hk. exists k. split; [done|]. left. split; [done|]. by exists vs. Qed.

Lemma record_by_kind_quantitative n k :
  k ∈ quantitative_kinds -> record_by_kind (quantitative_definition n k).
Proof. intros Hk. exists k. split; [done|]. by right. Qed.

Lemma apply_event_kinds e st :
  event_by_kind e -> in_definition st = false ->
  Forall record_by_kind (definitions st) -> kinds_inv (apply_event e st).
Proof.
  intros He Hi Hd. destruct e as [|n k|n k]; simpl in He; split; simpl; eauto.
  - congruence.
  - apply Forall_app. split; [done|]. repeat constructor.
    by apply record_by_kind_quantitative.
  - congruence.
Qed.

Lemma step_kinds st l :
  (forall l, event_by_kind (classify l)) ->
  wf st -> kinds_inv st ->
  exists st', step st l = Some st' /\ wf st' /\ kinds_inv st'.
Proof.
  intros Hc Hwf [Hd Hopen]. destruct (step_wf st l Hwf) as (st' & Hst & Hwf').
  exists st'. split; [done|]. split; [done|].
  destruct (is_blank l) eqn:Hb.
  { rewrite step_blank in Hst by done. by injection Hst as <-. }
  destruct (in_definition st) eqn:Hi.
  - destruct (Hopen eq_refl) as (k & Hk & Hkq).
    destruct (value_of l) as [v|] eqn:Hv.
    + rewrite (step_value st l v) in Hst by done. injection Hst as <-.
      split; simpl; eauto.
    + unfold wf in Hwf. rewrite Hi in Hwf. destruct Hwf as [[n Hn] _].
      rewrite (step_close st l n k) in Hst by done. injection Hst as <-.
      apply apply_event_kinds; [done..|]. simpl.
      apply Forall_app. split; [done|]. repeat constructor.
      by apply record_by_kind_qualitative.
  - rewrite step_idle in Hst by done. injection Hst as <-.
    by apply apply_event_kinds.
Qed.

Lemma loop_kinds ls :
  (forall l, event_by_kind (classify l)) ->
  forall st, wf st -> kinds_inv st ->
  exists st', loop step st ls = Some st' /\ kinds_inv st'.
Proof.
  intros Hc. induction ls as [|l ls IH]; intros st Hwf Hinv; simpl; [eauto|].
  destruct (step_kinds st l Hc Hwf Hinv) as (st1 & -> & Hwf1 & Hinv1). simpl.
  by apply IH.
Qed.

(** The records of a longer input have the same sources. *)
Lemma from_header_snoc ls l d :
  from_header step classify ls d -> from_header step classify (ls ++ [l]) d.
Proof.
  intros (pre & h & vs & t & post & st & n & k & -> & H).
  exists pre, h, vs, t, (post ++ [l]), st, n, k. split; [|exact H].
  by rewrite <- !app_assoc, <- !app_comm_cons, <- app_assoc.
Qed.

Lemma from_quantitative_snoc ls l d :
  from_quantitative classify ls d -> from_quantitative classify (ls ++ [l]) d.
Proof.
  intros (l' & n & k & Hl & H). exists l', n, k. split; [|exact H].
  apply elem_of_app. by left.
Qed.

Lemma traced_snoc_defs ls l (ds : list (gmap string value)) :
  Forall (fun d => from_quantitative classify ls d \/ from_header step classify ls d) ds ->
  Forall (fun d => from_quantitative classify (ls ++ [l]) d \/
                   from_header step classify (ls ++ [l]) d) ds.
Proof.
  intros H. eapply Forall_impl; [exact H|]. intros d [Hd|Hd].
  - left. by apply from_quantitative_snoc.
  - right. by apply from_header_snoc.
Qed.

Lemma traced_event ls l st0 st :
  loop step init ls = Some st0 -> is_blank l = false ->
  (in_definition st0 = true -> value_of l = None) ->
  in_definition st = false -> values st = [] ->
  Forall (fun d => from_quantitative classify (ls ++ [l]) d \/
                   from_header step classify (ls ++ [l]) d) (definitions st) ->
  traced step classify (ls ++ [l]) (apply_event (classify l) st).
Proof.
  intros Hls Hb Hnv Hi Hv Hd. destruct (classify l) as [|n k|n k] eqn:Hc; simpl.
  - split; [done|]. congruence.
  - split; [done|]. intros _. exists ls, l, [], st0, n, k. by repeat split.
  - split; [|simpl; congruence]. simpl. apply Forall_app. split; [done|].
    apply Forall_singleton. left. exists l, n, k.
    split; [|done]. apply elem_of_app. right. by left.
Qed.

Lemma traced_step ls l st st' :
  loop step init ls = Some st -> wf st -> traced step classify ls st ->
  step st l = Some st' -> traced step classify (ls ++ [l]) st'.
Proof.
  intros Hls Hwf [Hd Hopen] Hst. pose proof (traced_snoc_defs ls l _ Hd) as Hd'.
  destruct (is_blank l) eqn:Hb.
  { rewrite step_blank in Hst by done. injection Hst as <-. split; [done|].
    intros Hi. destruct (Hopen Hi) as (pre & h & vs & st0 & n & k & -> & H0 & H1 & H2 & H3 & H4 & H5 & Hn & Hk).
    exists pre, h, (vs ++ [l]), st0, n, k. rewrite <- app_assoc. repeat split; try done.
    - apply Forall_app. split; [done|]. apply Forall_singleton.
      unfold continues. by rewrite Hb.
    - rewrite omap_app, H5. simpl. unfold line_value. rewrite Hb. simpl.
      by rewrite app_nil_r. }
  destruct (in_definition st) eqn:Hi.
  - destruct (Hopen eq_refl) as (pre & h & vs & st0 & n & k & -> & H0 & H1 & H2 & H3 & H4 & H5 & Hn & Hk).
    destruct (value_of l) as [v|] eqn:Hv.
    + rewrite (step_value st l v) in Hst by done. injection Hst as <-.
      split; [done|]. intros _.
      exists pre, h, (vs ++ [l]), st0, n, k. rewrite <- app_assoc.
      repeat split; try done.
      * apply Forall_app. split; [done|]. apply Forall_singleton.
        unfold continues. rewrite Hv. rewrite bool_decide_eq_true_2 by eauto.
        apply orb_true_r.
      * simpl. rewrite omap_app, H5. simpl. unfold line_value.
        by rewrite Hb, Hv.
    + rewrite (step_close st l n k) in Hst by done. injection Hst as <-.
      apply (traced_event _ l st); try done. simpl.
      apply Forall_app. split; [done|]. apply Forall_singleton. right.
      exists pre, h, vs, l, [], st0, n, k. rewrite H5.
      repeat split; try done. by rewrite <- app_assoc.
  - rewrite step_idle in Hst by done. injection Hst as <-.
    apply (traced_event _ l st); try done; try congruence.
    unfold wf in Hwf. by rewrite Hi in Hwf.
Qed.

Lemma traced_loop ls st : loop step init ls = Some st -> traced step classify ls st.
Proof.
  revert st. induction ls as [|l ls IH] using rev_ind; intros st.
  { intros [= <-]. split; [constructor|]. done. }
  rewrite loop_app. destruct (loop step init ls) as [st0|] eqn:Hls; [|done].
  simpl. destruct (step st0 l) as [st1|] eqn:Hst; [|done]. simpl. intros [= <-].
  destruct (loop_wf init ls wf_init) as (st0' & Hls' & Hwf).
  rewrite Hls in Hls'. injection Hls' as <-.
  apply (traced_step ls l st0); auto.
Qed.

(** ** Growth of the returned list *)

Lemma agree_refl st : agree st st.
Proof. by repeat split. Qed.

(** The loop only appends to [definitions]. *)
Lemma loop_extends ls st :
  wf st ->
  exists X st', loop step st ls = Some st' /\
    definitions st' = definitions st ++ X /\ wf st'.
Proof.
  intros Hwf.
  destruct (loop_agree ls st st Hwf (agree_refl st))
    as (X & a & b & Ha & Hb & Hda & _ & Hwfa & _).
  by exists X, a.
Qed.

Lemma scan_app_extends l1 l2 :
  exists D X, scan step l1 = Some D /\ scan step (l1 ++ l2) = Some (D ++ X).
Proof.
  destruct (loop_wf init l1 wf_init) as (st & Hst & Hwf).
  destruct (loop_extends l2 st Hwf) as (X & st' & Hst' & HX & _).
  exists (definitions st), X. unfold scan. rewrite loop_app, Hst. simpl.
  rewrite Hst'. simpl. by rewrite HX.
Qed.

Lemma scan_app_idle l1 l2 st :
  loop step init l1 = Some st -> in_definition st = false ->
  exists D2, scan step l2 = Some D2 /\
    scan step (l1 ++ l2) = Some (definitions st ++ D2).
Proof.
  intros Hst Hi. destruct (loop_wf init l1 wf_init) as (st0 & Hst0 & Hwf).
  rewrite Hst in Hst0. injection Hst0 as <-.
  destruct (loop_idle st l2 Hwf Hi) as (X & st' & HX & Hloop & Hdefs).
  exists X. split; [done|]. unfold scan. rewrite loop_app, Hst. simpl.
  rewrite Hloop. simpl. by rewrite Hdefs.
Qed.

(** Every record, and the definition that is open, has used up a
    header line of its own. *)
Lemma step_bound st l st' :
  wf st -> step st l = Some st' ->
  length (definitions st') + pending st' <=
  length (definitions st) + pending st +
    (if is_header_event (classify l) then 1 else 0).
Proof.
  intros Hwf Hst. destruct (is_blank l) eqn:Hb.
  { rewrite step_blank in Hst by done. injection Hst as <-. lia. }
  unfold wf in Hwf. unfold pending. destruct (in_definition st) eqn:Hi.
  - destruct Hwf as [[n Hn] [k Hk]]. destruct (value_of l) as [v|] eqn:Hv.
    + rewrite (step_value st l v) in Hst by done. injection Hst as <-. simpl. lia.
    + rewrite (step_close st l n k) in Hst by done. injection Hst as <-.
      destruct (classify l); simpl; rewrite ?length_app; simpl; lia.
  - rewrite step_idle in Hst by done. injection Hst as <-.
    destruct (classify l); simpl; rewrite ?Hi, ?length_app; simpl; lia.
Qed.

Lemma loop_bound ls : forall st st',
  wf st -> loop step st ls = Some st' ->
  length (definitions st') + pending st' <=
  length (definitions st) + pending st + header_count classify ls.
Proof.
  unfold header_count.
  induction ls as [|l ls IH]; intros st st' Hwf Hst; simpl in Hst.
  { injection Hst as <-. simpl. lia. }
  destruct (step_wf st l Hwf) as (st1 & Hst1 & Hwf1). rewrite Hst1 in Hst.
  simpl in Hst. pose proof (step_bound st l st1 Hwf Hst1) as H1.
  pose proof (IH st1 st' Hwf1 Hst) as H2. rewrite filter_cons.
  destruct (is_header_event (classify l)).
  - rewrite decide_True by done. simpl. lia.
  - rewrite decide_False by done. lia.
Qed.

Lemma scan_bound ls D :
  scan step ls = Some D -> length D <= header_count classify ls.
Proof.
  unfold scan. destruct (loop step init ls) as [st|] eqn:Hst; [|done].
  intros [= <-]. pose proof (loop_bound ls init st wf_init Hst) as H.
  simpl in H. lia.
Qed.

End Scanner.

(** * From the patterns to their readings *)

Module Bridge.

Lemma value_of_None l : re_match ParseVariables.P_VALUE l = None <-> value_of l = None.
Proof. rewrite ReFacts.match_P_VALUE. by destruct (value_of l). Qed.

Lemma value_of_is_Some l :
  is_Some (re_match ParseVariables.P_VALUE l) <-> is_Some (value_of l).
Proof.
  rewrite ReFacts.match_P_VALUE. destruct (value_of l); simpl; [|by split; intros []].
  split; eauto.
Qed.

Lemma keeps_open_continues l : keeps_open l = continues l.
Proof.
  unfold keeps_open, continues. f_equal. apply bool_decide_ext, value_of_is_Some.
Qed.

Lemma added_value_line_value l : added_value l = line_value l.
Proof.
  unfold added_value, line_value. destruct (is_blank l); [done|].
  rewrite ReFacts.match_P_VALUE. by destruct (value_of l).
Qed.

Lemma Forall_keeps_open vs :
  Forall (fun l => keeps_open l = true) vs -> Forall (fun l => continues l = true) vs.
Proof. intros H. eapply Forall_impl; [exact H|]. intros l Hl. by rewrite <- keeps_open_continues. Qed.

Lemma omap_added_value (vs : list string) :
  omap added_value vs = omap line_value vs.
Proof.
  induction vs as [|l vs IH]; [done|]. simpl.
  rewrite added_value_line_value. unfold omap in IH. by rewrite IH.
Qed.

Lemma pv_opens h m n k :
  re_match ParseVariables.P_QUALITATIVE h = Some m ->
  group m "name" = Some n -> group m "kind" = Some k ->
  pv_event h = Opens (strip n) (strip k).
Proof.
  rewrite ReFacts.match_P_QUALITATIVE. unfold pv_event.
  destruct (header_of _ qualitative_kinds h) as [[n' k']|] eqn:Hq; [|done].
  rewrite (StepFacts.header_exclusive _ (header_tail true) _ _ _ Hq).
  intros [= <-]. by intros [= <-] [= <-].
Qed.

Lemma qv_opens h m n k :
  re_match QualitativeVariables.P_QUANTITATIVE h = Some m ->
  group m "name" = Some n -> group m "kind" = Some k ->
  qv_event h = Opens (strip n) (strip k).
Proof.
  rewrite ReFacts.match_QV_header. unfold qv_event.
  destruct (header_of _ qualitative_kinds h) as [[n' k']|] eqn:Hq; [|done].
  intros [= <-]. by intros [= <-] [= <-].
Qed.

Lemma pv_opens_inv h n' k' :
  pv_event h = Opens n' k' ->
  exists m n k, re_match ParseVariables.P_QUALITATIVE h = Some m /\
    group m "name" = Some n /\ group m "kind" = Some k /\
    n' = strip n /\ k' = strip k.
Proof.
  rewrite ReFacts.match_P_QUALITATIVE. unfold pv_event.
  destruct (header_of _ qualitative_kinds h) as [[n k]|],
    (header_of _ quantitative_kinds h) as [[??]|]; try done.
  intros [= <- <-]. by eexists _, n, k.
Qed.

Lemma pv_quantitative_inv l n' k' :
  pv_event l = Quantitative n' k' ->
  exists m n k, re_match ParseVariables.P_QUANTITATIVE l = Some m /\
    group m "name" = Some n /\ group m "kind" = Some k /\
    n' = strip n /\ k' = strip k.
Proof.
  rewrite ReFacts.match_P_QUANTITATIVE. unfold pv_event.
  destruct (header_of _ quantitative_kinds l) as [[n k]|];
    [|by destruct (header_of _ qualitative_kinds l) as [[??]|]].
  intros H. assert (n' = strip n /\ k' = strip k) as [-> ->].
  { destruct (header_of _ qualitative_kinds l) as [[??]|]; by injection H as <- <-. }
  by eexists _, n, k.
Qed.

Lemma pv_from_header_source lines d :
  from_header ParseVariables.step pv_event lines d -> pv_from_header lines d.
Proof.
  intros (pre & h & vs & t & post & st & n' & k' & -> & Hpre & Hb & Hnv & Hc & Hvs & Ht & Htv & ->).
  destruct (pv_opens_inv h n' k' Hc) as (m & n & k & Hm & Hn & Hk & -> & ->).
  exists pre, h, vs, t, post, st, m, n, k. rewrite omap_added_value.
  repeat split; try done.
  - intros Hi. by apply value_of_None, Hnv.
  - eapply Forall_impl; [exact Hvs|]. intros l Hl. by rewrite keeps_open_continues.
  - by apply value_of_None.
Qed.

Lemma pv_from_quantitative_source lines d :
  from_quantitative pv_event lines d -> pv_from_quantitative lines d.
Proof.
  intros (l & n' & k' & Hl & Hc & ->).
  destruct (pv_quantitative_inv l n' k' Hc) as (m & n & k & Hm & Hn & Hk & -> & ->).
  by exists l, m, n, k.
Qed.

End Bridge.

(** * The properties of the scanner *)

Lemma pv_scan_definition pre h vs st n k :
  loop ParseVariables.step init pre = Some st -> is_blank h = false ->
  (in_definition st = true -> value_of h = None) ->
  pv_event h = Opens n k ->
  Forall (fun l => continues l = true) vs ->
  exists st_h, ParseVariables.step st h = Some st_h /\ in_definition st_h = true /\
    ParseVariables.parse_lines (pre ++ [h]) = Some (definitions st_h) /\
    ParseVariables.parse_lines (pre ++ h :: vs) = Some (definitions st_h) /\
    forall t post, is_blank t = false -> value_of t = None ->
      exists X, ParseVariables.parse_lines (t :: post) = Some X /\
        ParseVariables.parse_lines (pre ++ h :: vs ++ t :: post) =
        Some (definitions st_h
              ++ qualitative_definition n k (omap line_value vs) :: X).
Proof.
  apply (scan_definition ParseVariables.step pv_event);
    auto using StepFacts.pv_step_blank, StepFacts.pv_step_value,
      StepFacts.pv_step_close, StepFacts.pv_step_idle.
Qed.

Lemma qv_scan_definition pre h vs st n k :
  loop QualitativeVariables.step init pre = Some st -> is_blank h = false ->
  (in_definition st = true -> value_of h = None) ->
  qv_event h = Opens n k ->
  Forall (fun l => continues l = true) vs ->
  exists st_h, QualitativeVariables.step st h = Some st_h /\ in_definition st_h = true /\
    QualitativeVariables.parse_lines (pre ++ [h]) = Some (definitions st_h) /\
    QualitativeVariables.parse_lines (pre ++ h :: vs) = Some (definitions st_h) /\
    forall t post, is_blank t = false -> value_of t = None ->
      exists X, QualitativeVariables.parse_lines (t :: post) = Some X /\
        QualitativeVariables.parse_lines (pre ++ h :: vs ++ t :: post) =
        Some (definitions st_h
              ++ qualitative_definition n k (omap line_value vs) :: X).
Proof.
  apply (scan_definition QualitativeVariables.step qv_event);
    auto using StepFacts.qv_step_blank, StepFacts.qv_step_value,
      StepFacts.qv_step_close, StepFacts.qv_step_idle.
Qed.

(** Neither parser raises: [name] and [kind] are bound whenever they are
    read, and every group that is read took part in the match. *)
Lemma parse_definitions_total contents :
  is_Some (ParseVariables.parse_definitions contents) /\
  is_Some (QualitativeVariables.parse_definitions contents).
Proof.
  split.
  - apply (scan_total ParseVariables.step pv_event);
      auto using StepFacts.pv_step_blank, StepFacts.pv_step_value,
        StepFacts.pv_step_close, StepFacts.pv_step_idle.
  - apply (scan_total QualitativeVariables.step qv_event);
      auto using StepFacts.qv_step_blank, StepFacts.qv_step_value,
        StepFacts.qv_step_close, StepFacts.qv_step_idle.
Qed.

(** A quantitative header alone is a complete record, without values. *)
Example quantitative_header_alone :
  ParseVariables.parse_definitions ("Bar (Discrete): some text" +:+ nl) =
    Some [quantitative_definition "Bar" "Discrete"] /\
  quantitative_definition "Bar" "Discrete" !! "values" = None.
Proof. by vm_compute. Qed.

(** ** Scenario 1 and the end of the input *)

(** C1, as stated, fails: on the input of scenario 1 the file ends while
    Foo is open, and [parse_definitions] returns no definition at all,
    not the single definition Foo / Nominal / [A, B]. *)
Lemma scenario1_returns_nothing :
  ParseVariables.parse_definitions scenario1 = Some [] /\
  ParseVariables.parse_definitions scenario1 <>
    Some [qualitative_definition "Foo" "Nominal" ["A"; "B"]].
Proof. split; [by vm_compute|]. vm_compute. discriminate. Qed.

(** C1, amended: the input of scenario 1 alone yields no definition;
    when a non-blank line [t] that is not a value line follows its three
    lines, the definition Foo / Nominal / [A, B] is returned first, and
    after it what [t] and the lines after it yield on their own. *)
Theorem scenario1_closed_by_next_line t post :
  is_blank t = false -> re_match ParseVariables.P_VALUE t = None ->
  ParseVariables.parse_definitions scenario1 = Some [] /\
  exists X, ParseVariables.parse_lines (t :: post) = Some X /\
    ParseVariables.parse_lines (readlines scenario1 ++ t :: post) =
    Some (qualitative_definition "Foo" "Nominal" ["A"; "B"] :: X).
Proof.
  intros Hb Hv. split; [by vm_compute|].
  set (h := "Foo (Nominal):" +:+ nl).
  set (vs := ["       A" +:+ tab +:+ "desc" +:+ nl; "       B" +:+ tab +:+ "desc" +:+ nl]).
  assert (Hlines : readlines scenario1 = [] ++ h :: vs) by (by vm_compute).
  destruct (pv_scan_definition [] h vs init "Foo" "Nominal")
    as (st_h & Hh & _ & _ & _ & Hclose); try (by vm_compute).
  { apply Forall_forall. intros l Hl. repeat (apply elem_of_cons in Hl as [->|Hl]; [by vm_compute|]).
    by apply elem_of_nil in Hl. }
  apply Bridge.value_of_None in Hv.
  destruct (Hclose t post Hb Hv) as (X & HX & Hall).
  exists X. split; [done|]. rewrite Hlines.
  change (([] ++ h :: vs) ++ t :: post) with ([] ++ h :: vs ++ t :: post).
  rewrite Hall. vm_compute in Hh. injection Hh as <-. reflexivity.
Qed.

Lemma scenario1_closed_by_next_line_witness :
  ParseVariables.parse_definitions scenario1 = Some [] /\
  exists X, ParseVariables.parse_lines ["end"] = Some X /\
    ParseVariables.parse_lines (readlines scenario1 ++ ["end"]) =
    Some (qualitative_definition "Foo" "Nominal" ["A"; "B"] :: X).
Proof. apply (scenario1_closed_by_next_line "end" []); reflexivity. Defined.

(** C2: when the input ends while a qualitative definition is open (its
    header [h] was read as a header, and every line [vs] after it is
    blank or a value line), the returned list is the list of the
    definitions emitted up to the header, unchanged, and the pending
    definition is not in it: it would come next if a closing line [t]
    followed. In both parser modules. *)
Theorem open_definition_dropped_at_end pre h vs :
  is_blank h = false ->
  Forall (fun l => keeps_open l = true) vs ->
  (forall st m n k,
     loop ParseVariables.step init pre = Some st ->
     (in_definition st = true -> re_match ParseVariables.P_VALUE h = None) ->
     re_match ParseVariables.P_QUALITATIVE h = Some m ->
     group m "name" = Some n -> group m "kind" = Some k ->
     exists st_h,
       ParseVariables.step st h = Some st_h /\ in_definition st_h = true /\
       ParseVariables.parse_lines (pre ++ [h]) = Some (definitions st_h) /\
       ParseVariables.parse_lines (pre ++ h :: vs) = Some (definitions st_h) /\
       forall t, is_blank t = false -> re_match ParseVariables.P_VALUE t = None ->
         exists X, ParseVariables.parse_lines (pre ++ h :: vs ++ [t]) =
           Some (definitions st_h ++
                 qualitative_definition (strip n) (strip k) (omap added_value vs) :: X))
  /\
  (forall st m n k,
     loop QualitativeVariables.step init pre = Some st ->
     (in_definition st = true -> re_match QualitativeVariables.P_VALUE h = None) ->
     re_match QualitativeVariables.P_QUANTITATIVE h = Some m ->
     group m "name" = Some n -> group m "kind" = Some k ->
     exists st_h,
       QualitativeVariables.step st h = Some st_h /\ in_definition st_h = true /\
       QualitativeVariables.parse_lines (pre ++ [h]) = Some (definitions st_h) /\
       QualitativeVariables.parse_lines (pre ++ h :: vs) = Some (definitions st_h) /\
       forall t, is_blank t = false -> re_match QualitativeVariables.P_VALUE t = None ->
         exists X, QualitativeVariables.parse_lines (pre ++ h :: vs ++ [t]) =
           Some (definitions st_h ++
                 qualitative_definition (strip n) (strip k) (omap added_value vs) :: X)).
Proof.
  intros Hb Hvs. apply Bridge.Forall_keeps_open in Hvs.
  rewrite Bridge.omap_added_value. split.
  - intros st m n k Hpre Hnv Hm Hn Hk.
    destruct (pv_scan_definition pre h vs st (strip n) (strip k))
      as (st_h & Hh & Hi & Hhead & Hend & Hclose); auto.
    { intros Hopen. by apply Bridge.value_of_None, Hnv. }
    { by eapply Bridge.pv_opens. }
    exists st_h. repeat split; auto.
    intros t Ht Htv. apply Bridge.value_of_None in Htv.
    destruct (Hclose t [] Ht Htv) as (X & _ & HX). eauto.
  - intros st m n k Hpre Hnv Hm Hn Hk.
    destruct (qv_scan_definition pre h vs st (strip n) (strip k))
      as (st_h & Hh & Hi & Hhead & Hend & Hclose); auto.
    { intros Hopen. by apply Bridge.value_of_None, Hnv. }
    { by eapply Bridge.qv_opens. }
    exists st_h. repeat split; auto.
    intros t Ht Htv. apply Bridge.value_of_None in Htv.
    destruct (Hclose t [] Ht Htv) as (X & _ & HX). eauto.
Qed.

Lemma open_definition_dropped_at_end_witness :
  ParseVariables.parse_lines (open_pre ++ open_header :: open_values) =
    Some [quantitative_definition "Bar" "Discrete"] /\
  QualitativeVariables.parse_lines (open_pre ++ open_header :: open_values) = Some [].
Proof.
  assert (Hb : is_blank open_header = false) by reflexivity.
  assert (Hvs : Forall (fun l => keeps_open l = true) open_values)
    by (repeat constructor).
  destruct (open_definition_dropped_at_end open_pre open_header open_values Hb Hvs)
    as [Hpv Hqv].
  split.
  - set (st := apply_event (Quantitative "Bar" "Discrete") init).
    assert (Hpre : loop ParseVariables.step init open_pre = Some st) by reflexivity.
    assert (Hnv : in_definition st = true ->
                  re_match ParseVariables.P_VALUE open_header = None) by done.
    assert (Hm : re_match ParseVariables.P_QUALITATIVE open_header = Some open_groups)
      by reflexivity.
    destruct (Hpv st open_groups "Foo " "Nominal" Hpre Hnv Hm eq_refl eq_refl)
      as (st_h & Hh & _ & _ & Hend & _).
    rewrite Hend. vm_compute in Hh. injection Hh as <-. reflexivity.
  - assert (Hpre : loop QualitativeVariables.step init open_pre = Some init) by reflexivity.
    assert (Hnv : in_definition init = true ->
                  re_match QualitativeVariables.P_VALUE open_header = None) by done.
    assert (Hm : re_match QualitativeVariables.P_QUANTITATIVE open_header = Some open_groups)
      by reflexivity.
    destruct (Hqv init open_groups "Foo " "Nominal" Hpre Hnv Hm eq_refl eq_refl)
      as (st_h & Hh & _ & _ & Hend & _).
    rewrite Hend. vm_compute in Hh. injection Hh as <-. reflexivity.
Defined.

(** C10, as stated, fails: while a definition is open a line is tried
    as a value line before it is tried as a header. A line that the
    qualitative header pattern matches and that is also a value line,
    read while [Foo] is open, is appended to the values of [Foo]; the
    non-blank line after it, which is no value line, closes [Foo], and
    no definition [Y] with an empty list of values is emitted. In both
    parser modules. *)
Lemma header_read_as_value :
  let h := "       Y (Nominal):" +:+ tab +:+ "bar" +:+ nl in
  let t := "end" +:+ nl in
  let contents := "Foo (Nominal):" +:+ nl +:+ h +:+ t in
  re_match ParseVariables.P_QUALITATIVE h =
    Some (<["kind" := "Nominal"]> {[ "name" := "       Y " ]}) /\
  re_match QualitativeVariables.P_QUANTITATIVE h =
    Some (<["kind" := "Nominal"]> {[ "name" := "       Y " ]}) /\
  is_blank t = false /\
  re_match ParseVariables.P_VALUE t = None /\
  re_match QualitativeVariables.P_VALUE t = None /\
  readlines contents = ["Foo (Nominal):" +:+ nl; h; t] /\
  ParseVariables.parse_definitions contents =
    Some [qualitative_definition "Foo" "Nominal" ["Y (Nominal):"]] /\
  QualitativeVariables.parse_definitions contents =
    Some [qualitative_definition "Foo" "Nominal" ["Y (Nominal):"]].
Proof. by vm_compute. Qed.

(** C10, amended: a qualitative definition whose header [h] is read as
    a header (no definition is open when [h] is read, or [h] is not a
    value line), is followed by the lines [vs], all blank or value
    lines, and then by a non-blank line [t] that is not a value line,
    is emitted with the values of [vs], in order, and nothing else:
    whatever the lines [pre] before the header were. With no value line
    in [vs] its [values] key is bound to the empty list. In both parser
    modules. *)
Theorem definition_values_since_header pre h vs t post :
  is_blank h = false ->
  Forall (fun l => keeps_open l = true) vs ->
  is_blank t = false -> re_match ParseVariables.P_VALUE t = None ->
  (forall st m n k,
     loop ParseVariables.step init pre = Some st ->
     (in_definition st = true -> re_match ParseVariables.P_VALUE h = None) ->
     re_match ParseVariables.P_QUALITATIVE h = Some m ->
     group m "name" = Some n -> group m "kind" = Some k ->
     exists D X d,
       ParseVariables.parse_lines (pre ++ [h]) = Some D /\
       ParseVariables.parse_lines (t :: post) = Some X /\
       ParseVariables.parse_lines (pre ++ h :: vs ++ t :: post) = Some (D ++ d :: X) /\
       d = qualitative_definition (strip n) (strip k) (omap added_value vs) /\
       d !! "values" = Some (PList (omap added_value vs)) /\
       (Forall (fun l => is_blank l = true) vs -> d !! "values" = Some (PList [])))
  /\
  (forall st m n k,
     loop QualitativeVariables.step init pre = Some st ->
     (in_definition st = true -> re_match QualitativeVariables.P_VALUE h = None) ->
     re_match QualitativeVariables.P_QUANTITATIVE h = Some m ->
     group m "name" = Some n -> group m "kind" = Some k ->
     exists D X d,
       QualitativeVariables.parse_lines (pre ++ [h]) = Some D /\
       QualitativeVariables.parse_lines (t :: post) = Some X /\
       QualitativeVariables.parse_lines (pre ++ h :: vs ++ t :: post) = Some (D ++ d :: X) /\
       d = qualitative_definition (strip n) (strip k) (omap added_value vs) /\
       d !! "values" = Some (PList (omap added_value vs)) /\
       (Forall (fun l => is_blank l = true) vs -> d !! "values" = Some (PList []))).
Proof.
  intros Hb Hvs Ht Htv. apply Bridge.value_of_None in Htv.
  assert (Hblank : Forall (fun l => is_blank l = true) vs -> omap added_value vs = []).
  { clear. induction 1 as [|l vs Hl _ IH]; [done|]. simpl.
    unfold added_value at 1. rewrite Hl. exact IH. }
  apply Bridge.Forall_keeps_open in Hvs. split.
  - intros st m n k Hpre Hnv Hm Hn Hk.
    destruct (pv_scan_definition pre h vs st (strip n) (strip k))
      as (st_h & Hh & Hi & Hhead & _ & Hclose); auto.
    { intros Hopen. by apply Bridge.value_of_None, Hnv. }
    { by eapply Bridge.pv_opens. }
    destruct (Hclose t post Ht Htv) as (X & HX & Hall).
    exists (definitions st_h), X, (qualitative_definition (strip n) (strip k) (omap added_value vs)).
    rewrite Bridge.omap_added_value in *. repeat split; auto.
    intros Hbl. by rewrite (Hblank Hbl).
  - intros st m n k Hpre Hnv Hm Hn Hk.
    destruct (qv_scan_definition pre h vs st (strip n) (strip k))
      as (st_h & Hh & Hi & Hhead & _ & Hclose); auto.
    { intros Hopen. by apply Bridge.value_of_None, Hnv. }
    { by eapply Bridge.qv_opens. }
    destruct (Hclose t post Ht Htv) as (X & HX & Hall).
    exists (definitions st_h), X, (qualitative_definition (strip n) (strip k) (omap added_value vs)).
    rewrite Bridge.omap_added_value in *. repeat split; auto.
    intros Hbl. by rewrite (Hblank Hbl).
Qed.

Lemma definition_values_since_header_witness :
  (exists D X,
     ParseVariables.parse_lines (open_pre ++ open_header :: open_values ++ ["end"]) =
     Some (D ++ qualitative_definition "Foo" "Nominal" ["A"; "B"] :: X)) /\
  (exists D X,
     QualitativeVariables.parse_lines (open_pre ++ open_header :: open_values ++ ["end"]) =
     Some (D ++ qualitative_definition "Foo" "Nominal" ["A"; "B"] :: X)).
Proof.
  assert (Hb : is_blank open_header = false) by reflexivity.
  assert (Hvs : Forall (fun l => keeps_open l = true) open_values)
    by (repeat constructor).
  assert (Ht : is_blank "end" = false) by reflexivity.
  assert (Htv : re_match ParseVariables.P_VALUE "end" = None) by reflexivity.
  destruct (definition_values_since_header open_pre open_header open_values
              "end" [] Hb Hvs Ht Htv) as [Hpv Hqv].
  split.
  - set (st := apply_event (Quantitative "Bar" "Discrete") init).
    assert (Hpre : loop ParseVariables.step init open_pre = Some st) by reflexivity.
    assert (Hnv : in_definition st = true ->
                  re_match ParseVariables.P_VALUE open_header = None) by done.
    assert (Hm : re_match ParseVariables.P_QUALITATIVE open_header = Some open_groups)
      by reflexivity.
    destruct (Hpv st open_groups "Foo " "Nominal" Hpre Hnv Hm eq_refl eq_refl)
      as (D & X & d & _ & _ & Hall & -> & _).
    exists D, X. exact Hall.
  - assert (Hpre : loop QualitativeVariables.step init open_pre = Some init) by reflexivity.
    assert (Hnv : in_definition init = true ->
                  re_match QualitativeVariables.P_VALUE open_header = None) by done.
    assert (Hm : re_match QualitativeVariables.P_QUANTITATIVE open_header = Some open_groups)
      by reflexivity.
    destruct (Hqv init open_groups "Foo " "Nominal" Hpre Hnv Hm eq_refl eq_refl)
      as (D & X & d & _ & _ & Hall & -> & _).
    exists D, X. exact Hall.
Defined.


(** ** A line that closes a definition *)

(** C3: while a qualitative definition is open, a non-blank line that
    fails the value pattern emits the open definition with the values
    gathered so far and is, in the same iteration, read as a potential
    header by a scanner that has no definition open; on the input of
    scenario 3 the result is Foo / Nominal / [A], then Bar / Discrete. *)
Theorem closing_line_is_reexamined st line n k :
  in_definition st = true -> name st = Some n -> kind st = Some k ->
  is_blank line = false -> re_match ParseVariables.P_VALUE line = None ->
  in_definition (close st n k) = false /\
  definitions (close st n k) =
    definitions st ++ [qualitative_definition n k (values st)] /\
  ParseVariables.step st line = ParseVariables.step (close st n k) line /\
  ParseVariables.step st line = Some (apply_event (pv_event line) (close st n k)) /\
  ParseVariables.parse_definitions scenario3 =
    Some [qualitative_definition "Foo" "Nominal" ["A"];
          quantitative_definition "Bar" "Discrete"].
Proof.
  intros Hi Hn Hk Hb Hv. apply Bridge.value_of_None in Hv.
  repeat split.
  - rewrite (StepFacts.pv_step_close st line n k) by done.
    by rewrite StepFacts.pv_step_idle.
  - by apply StepFacts.pv_step_close.
Qed.

Lemma closing_line_is_reexamined_witness :
  ParseVariables.step (push_value (apply_event (Opens "Foo" "Nominal") init) "A")
    ("Bar (Discrete): y" +:+ nl) =
  Some (apply_event (Quantitative "Bar" "Discrete")
          (close (push_value (apply_event (Opens "Foo" "Nominal") init) "A")
             "Foo" "Nominal")).
Proof.
  set (st := push_value (apply_event (Opens "Foo" "Nominal") init) "A").
  exact (proj1 (proj2 (proj2 (proj2
    (closing_line_is_reexamined st ("Bar (Discrete): y" +:+ nl) "Foo" "Nominal"
       eq_refl eq_refl eq_refl eq_refl eq_refl))))).
Defined.

(** ** Blank lines *)

(** C7: a blank line leaves the state of the loop as it is, whatever
    the state (no value is added, no definition is closed or emitted),
    so that a blank line inserted or removed anywhere, and all blank
    lines removed together, leave the returned list unchanged. In both
    parser modules. *)
Theorem blank_lines_are_skipped b :
  is_blank b = true ->
  (forall st, ParseVariables.step st b = Some st) /\
  (forall st, QualitativeVariables.step st b = Some st) /\
  (forall l1 l2, ParseVariables.parse_lines (l1 ++ b :: l2) =
                 ParseVariables.parse_lines (l1 ++ l2)) /\
  (forall l1 l2, QualitativeVariables.parse_lines (l1 ++ b :: l2) =
                 QualitativeVariables.parse_lines (l1 ++ l2)) /\
  (forall ls, ParseVariables.parse_lines (filter (fun l => is_blank l = false) ls) =
              ParseVariables.parse_lines ls) /\
  (forall ls, QualitativeVariables.parse_lines (filter (fun l => is_blank l = false) ls) =
              QualitativeVariables.parse_lines ls).
Proof.
  intros Hb. repeat split; intros.
  - by apply StepFacts.pv_step_blank.
  - by apply StepFacts.qv_step_blank.
  - unfold ParseVariables.parse_lines.
    by rewrite (loop_blank _ StepFacts.pv_step_blank).
  - unfold QualitativeVariables.parse_lines.
    by rewrite (loop_blank _ StepFacts.qv_step_blank).
  - unfold ParseVariables.parse_lines.
    by rewrite (loop_filter_blank _ StepFacts.pv_step_blank).
  - unfold QualitativeVariables.parse_lines.
    by rewrite (loop_filter_blank _ StepFacts.qv_step_blank).
Qed.

Lemma blank_lines_are_skipped_witness :
  ParseVariables.parse_lines (open_header :: ("   " +:+ nl) :: open_values ++ ["end"]) =
  ParseVariables.parse_lines (open_header :: open_values ++ ["end"]).
Proof.
  exact (proj1 (proj2 (proj2 (blank_lines_are_skipped ("   " +:+ nl) eq_refl)))
           [open_header] (open_values ++ ["end"])).
Defined.


(** ** Value lines *)

(** C4, as stated, fails: a line with eight leading spaces is taken as
    a value line (the eighth space is the first character of the
    value), and a line whose seven spaces are followed at once by a tab
    is not (the value would be empty) and closes the definition. *)
Lemma eight_spaces_is_a_value_line :
  let st := apply_event (Opens "Foo" "Nominal") init in
  let line8 := "        A" +:+ tab +:+ "desc" +:+ nl in
  let line7 := "       " +:+ tab +:+ "desc" +:+ nl in
  (String.length (take_while (is_char SP) line8) = 8 /\
   is_blank line8 = false /\
   ParseVariables.step st line8 = Some (push_value st "A")) /\
  (String.length (take_while (is_char SP) line7) = 7 /\
   find_char TAB line7 = Some 7 /\
   is_blank line7 = false /\
   ParseVariables.step st line7 = Some (close st "Foo" "Nominal")).
Proof. by vm_compute. Qed.

(** C4, amended: while a qualitative definition is open, a non-blank
    line is appended as a value if and only if its first seven
    characters are spaces and its first tab stands at a position greater
    than 7; the value is then the text between position 7 and that tab,
    stripped. Every other non-blank line closes the definition, which
    is emitted with the values gathered so far, and is read as a
    potential header. *)
Theorem value_line_positions st line n k :
  in_definition st = true -> name st = Some n -> kind st = Some k ->
  is_blank line = false ->
  ParseVariables.step st line =
  if is_value_line line
  then Some (push_value st (strip (value_text line)))
  else Some (apply_event (pv_event line) (close st n k)).
Proof.
  intros Hi Hn Hk Hb. pose proof (value_of_positions line) as Hv.
  destruct (is_value_line line).
  - by apply StepFacts.pv_step_value.
  - by apply StepFacts.pv_step_close.
Qed.

Lemma value_line_positions_witness :
  ParseVariables.step (apply_event (Opens "Foo" "Nominal") init)
    ("       A b " +:+ tab +:+ "desc" +:+ nl) =
  Some (push_value (apply_event (Opens "Foo" "Nominal") init) "A b").
Proof.
  exact (value_line_positions (apply_event (Opens "Foo" "Nominal") init)
           ("       A b " +:+ tab +:+ "desc" +:+ nl) "Foo" "Nominal"
           eq_refl eq_refl eq_refl eq_refl).
Defined.


(** ** Header lines *)

Lemma header_of_line tl words name_text w ws trailing :
  name_text <> EmptyString ->
  all_chars (not_char "(") name_text = true ->
  header_of tl words (header_line name_text w ws trailing) =
  first_some
    (fun w' => match strip_prefix w' (w +:+ String ")" (ws +:+ String ":" trailing)) with
               | Some r => if tl r then Some (name_text, w') else None
               | None => None
               end) words.
Proof.
  intros Hne Hn. unfold header_of, header_line.
  rewrite take_while_app, drop_while_app by done.
  by destruct name_text.
Qed.

(** In [parse_variables] every line of that shape is a header, for the
    four kinds, with the text before the parenthesis as its name. *)
Lemma pv_header_recognised name_text w ws trailing :
  name_text <> EmptyString ->
  all_chars (not_char "(") name_text = true ->
  all_chars isspace ws = true ->
  (w ∈ qualitative_kinds ->
   re_match ParseVariables.P_QUALITATIVE (header_line name_text w ws trailing) =
     Some (<["kind" := w]> {[ "name" := name_text ]}) /\
   pv_event (header_line name_text w ws trailing) = Opens (strip name_text) w) /\
  (w ∈ quantitative_kinds ->
   re_match ParseVariables.P_QUANTITATIVE (header_line name_text w ws trailing) =
     Some (<["kind" := w]> {[ "name" := name_text ]}) /\
   pv_event (header_line name_text w ws trailing) = Quantitative (strip name_text) w).
Proof.
  intros Hne Hn Hws.
  assert (Hq : w ∈ qualitative_kinds ->
    header_of (header_tail true) qualitative_kinds (header_line name_text w ws trailing)
    = Some (name_text, w)).
  { intros Hw. rewrite header_of_line by done. unfold qualitative_kinds in *.
    repeat (apply elem_of_cons in Hw as [->|Hw]);
      [| |by apply elem_of_nil in Hw];
      rewrite !str_app_cons, str_app_empty_l; simpl; by rewrite drop_while_app. }
  assert (Hd : w ∈ quantitative_kinds ->
    header_of (header_tail true) quantitative_kinds (header_line name_text w ws trailing)
    = Some (name_text, w)).
  { intros Hw. rewrite header_of_line by done. unfold quantitative_kinds in *.
    repeat (apply elem_of_cons in Hw as [->|Hw]);
      [| |by apply elem_of_nil in Hw];
      rewrite !str_app_cons, str_app_empty_l; simpl; by rewrite drop_while_app. }
  split; intros Hw.
  - rewrite ReFacts.match_P_QUALITATIVE. unfold pv_event.
    rewrite (Hq Hw), (StepFacts.header_exclusive _ (header_tail true) _ _ _ (Hq Hw)).
    split; [done|]. f_equal. unfold qualitative_kinds in Hw.
    repeat (apply elem_of_cons in Hw as [->|Hw]); try done. by apply elem_of_nil in Hw.
  - rewrite ReFacts.match_P_QUANTITATIVE. unfold pv_event. rewrite (Hd Hw).
    split; [done|].
    destruct (header_of (header_tail true) qualitative_kinds _) as [[??]|];
      f_equal; unfold quantitative_kinds in Hw;
      repeat (apply elem_of_cons in Hw as [->|Hw]); try done; by apply elem_of_nil in Hw.
Qed.

(** In [qualitative_variables] so is every such line without white
    space between the parenthesis and the colon. *)
Lemma qv_header_recognised name_text w trailing :
  name_text <> EmptyString ->
  all_chars (not_char "(") name_text = true ->
  w ∈ qualitative_kinds ->
  re_match QualitativeVariables.P_QUANTITATIVE (header_line name_text w EmptyString trailing) =
    Some (<["kind" := w]> {[ "name" := name_text ]}) /\
  qv_event (header_line name_text w EmptyString trailing) = Opens (strip name_text) w.
Proof.
  intros Hne Hn Hw.
  assert (Hq : header_of (header_tail false) qualitative_kinds
                 (header_line name_text w EmptyString trailing) = Some (name_text, w)).
  { rewrite header_of_line by done. unfold qualitative_kinds in *.
    repeat (apply elem_of_cons in Hw as [->|Hw]);
      [| |by apply elem_of_nil in Hw]; reflexivity. }
  rewrite ReFacts.match_QV_header. unfold qv_event. rewrite Hq.
  split; [done|]. f_equal. unfold qualitative_kinds in Hw.
  repeat (apply elem_of_cons in Hw as [->|Hw]); try done. by apply elem_of_nil in Hw.
Qed.

(** C5 holds in [parse_variables] ([pv_header_recognised]) and fails in
    [qualitative_variables], whose pattern wants the colon right after
    the parenthesis: the header ["Foo (Nominal) : x"] is recognised by
    the first module and is no header for the second, which loses the
    definition. *)
Theorem spaced_header_missed_by_qualitative_variables :
  let line := header_line "Foo " "Nominal" " " (" x" +:+ nl) in
  line = "Foo (Nominal) : x" +:+ nl /\
  re_match ParseVariables.P_QUALITATIVE line =
    Some (<["kind" := "Nominal"]> {[ "name" := "Foo " ]}) /\
  re_match QualitativeVariables.P_QUANTITATIVE line = None /\
  ParseVariables.parse_lines [line; "end"] =
    Some [qualitative_definition "Foo" "Nominal" []] /\
  QualitativeVariables.parse_lines [line; "end"] = Some [].
Proof. by vm_compute. Qed.


(** ** The shape of the emitted records *)

Lemma strip_kind w :
  w ∈ qualitative_kinds ++ quantitative_kinds -> strip w = w.
Proof.
  unfold qualitative_kinds, quantitative_kinds. simpl. intros Hw.
  repeat (apply elem_of_cons in Hw as [->|Hw]; [reflexivity|]).
  by apply elem_of_nil in Hw.
Qed.

Lemma pv_event_by_kind l : event_by_kind (pv_event l).
Proof.
  unfold pv_event.
  destruct (header_of _ quantitative_kinds l) as [[n k]|] eqn:Hd.
  - apply StepFacts.header_of_kind in Hd.
    destruct (header_of _ qualitative_kinds l) as [[??]|]; simpl;
      rewrite strip_kind; auto; apply elem_of_app; auto.
  - destruct (header_of _ qualitative_kinds l) as [[n k]|] eqn:Hq; [|done].
    apply StepFacts.header_of_kind in Hq. simpl.
    rewrite strip_kind; auto. apply elem_of_app; auto.
Qed.

(** C6: [parse_definitions] returns, and every record it returns has a
    kind that decides its shape: Nominal or Ordinal with a [values] key
    bound to a list, or Discrete or Continuous without a [values] key;
    there is no record of another kind. Each record comes from the
    input: a quantitative record from a quantitative header, a
    qualitative one from its header, with for values those of the lines
    between the header and the line that closed it, in their order,
    each as often as it occurs. *)
Theorem emitted_records_by_kind contents :
  exists ds, ParseVariables.parse_definitions contents = Some ds /\
    Forall record_by_kind ds /\
    Forall (fun d => pv_from_quantitative (readlines contents) d \/
                     pv_from_header (readlines contents) d) ds.
Proof.
  unfold ParseVariables.parse_definitions, ParseVariables.parse_lines.
  destruct (loop_kinds ParseVariables.step pv_event
              StepFacts.pv_step_blank StepFacts.pv_step_value
              StepFacts.pv_step_close StepFacts.pv_step_idle
              (readlines contents) pv_event_by_kind init)
    as (st & Hst & Hd & _); [done|by split|].
  rewrite Hst. exists (definitions st). split; [done|]. split; [done|].
  destruct (traced_loop ParseVariables.step pv_event
              StepFacts.pv_step_blank StepFacts.pv_step_value
              StepFacts.pv_step_close StepFacts.pv_step_idle
              (readlines contents) st Hst) as [Htr _].
  eapply Forall_impl; [exact Htr|]. intros d [Hq|Hh].
  - left. by apply Bridge.pv_from_quantitative_source.
  - right. by apply Bridge.pv_from_header_source.
Qed.


(** ** The loader and the classifiers *)

Module UtilsFacts.
Import Utils.

Lemma make_pair_loaded d n k :
  d !! "name" = Some (PStr n) -> d !! "kind" = Some k ->
  exists a, make_pair d = Some (PStr n, a) /\ is_attrs d a.
Proof.
  intros Hn Hk. unfold make_pair. rewrite Hn, Hk. simpl.
  destruct (d !! "values") as [vs|] eqn:Hv; eexists; (split; [done|]);
    intros key; case_decide as Hkey.
  - destruct Hkey as [-> | ->]; by simplify_map_eq.
  - rewrite lookup_insert_ne, lookup_singleton_ne by (intros ?; subst; tauto). done.
  - destruct Hkey as [-> | ->]; by simplify_map_eq.
  - rewrite lookup_singleton_ne by (intros ?; subst; tauto). done.
Qed.

Lemma is_attrs_unique d a b : is_attrs d a -> is_attrs d b -> a = b.
Proof. intros Ha Hb. apply map_eq. intros key. by rewrite Ha, Hb. Qed.

Lemma od_update_strings {A} (items : list (string * A)) od :
  od_update od ((fun it => (PStr it.1, it.2)) <$> items) =
  Some (foldl (fun od it => od_set it.1 it.2 od) od items).
Proof.
  revert od. induction items as [|[k v] items IH]; intros od; [done|]. apply IH.
Qed.

Lemma od_set_fresh {A} k (v : A) od : k ∉ od.*1 -> od_set k v od = od ++ [(k, v)].
Proof.
  induction od as [|[k' v'] od IH]; [done|]. simpl. intros Hk.
  apply not_elem_of_cons in Hk as [Hne Hk].
  rewrite decide_False by done. by rewrite IH.
Qed.

Lemma foldl_od_set_fresh {A} (items : list (string * A)) od :
  NoDup (od.*1 ++ items.*1) ->
  foldl (fun od it => od_set it.1 it.2 od) od items = od ++ items.
Proof.
  revert od. induction items as [|[k v] items IH]; intros od Hnd; simpl.
  { by rewrite app_nil_r. }
  simpl in Hnd. apply NoDup_app in Hnd as (Hod & Hdisj & Hitems).
  apply NoDup_cons in Hitems as [Hk Hitems].
  rewrite od_set_fresh by (intros Hin; apply (Hdisj _ Hin); left).
  rewrite IH, <- app_assoc; [done|].
  rewrite fmap_app. simpl. rewrite <- app_assoc. simpl.
  apply NoDup_app. split; [done|]. split.
  - intros x Hx. apply not_elem_of_cons. split.
    + intros ->. apply (Hdisj _ Hx). left.
    + intros Hin. apply (Hdisj _ Hx). by right.
  - by apply NoDup_cons.
Qed.

Lemma od_get_set {A} n k (v : A) od :
  od_get n (od_set k v od) = if decide (n = k) then Some v else od_get n od.
Proof.
  induction od as [|[k' v'] od IH]; simpl.
  { by destruct (decide (n = k)). }
  destruct (decide (k = k')) as [<-|Hne]; simpl.
  - by destruct (decide (n = k)).
  - destruct (decide (n = k')) as [->|]; [by rewrite decide_False|]. exact IH.
Qed.

Lemma od_get_foldl {A} n (items : list (string * A)) od :
  od_get n (foldl (fun od it => od_set it.1 it.2 od) od items) =
  match last_where (fun it => bool_decide (it.1 = n)) items with
  | Some it => Some it.2
  | None => od_get n od
  end.
Proof.
  revert od. induction items as [|[k v] items IH]; intros od; [done|]. simpl.
  rewrite IH. destruct (last_where _ items); [done|].
  rewrite od_get_set. simpl. destruct (decide (n = k)) as [->|Hne].
  - by rewrite bool_decide_eq_true_2.
  - by rewrite bool_decide_eq_false_2.
Qed.

Lemma last_where_loaded n defs items :
  Forall2 loaded defs items ->
  match last_named n defs, last_where (fun it => bool_decide (it.1 = n)) items with
  | Some d, Some it => is_attrs d it.2
  | None, None => True
  | _, _ => False
  end.
Proof.
  unfold last_named. induction 1 as [|d it defs items [Hn Ha] _ IH]; [done|]. simpl.
  destruct (last_where _ defs), (last_where _ items); try done.
  rewrite Hn. destruct (decide (it.1 = n)) as [->|Hne].
  - by rewrite !bool_decide_eq_true_2.
  - rewrite !bool_decide_eq_false_2; [done..|]. by intros [= ?].
Qed.

Lemma make_pairs defs :
  Forall named defs ->
  exists items, Forall2 loaded defs items /\
    mapM make_pair defs = Some ((fun it => (PStr it.1, it.2)) <$> items).
Proof.
  induction 1 as [|d defs (n & k & Hn & Hk) _ (items & Hl & Hm)].
  { by exists []. }
  destruct (make_pair_loaded d n k Hn Hk) as (a & Hp & Ha).
  exists ((n, a) :: items). split; [by constructor|].
  apply mapM_Some. constructor; [done|]. by apply mapM_Some.
Qed.

Lemma loaded_names defs items :
  Forall2 loaded defs items ->
  (fun d => d !! "name") <$> defs = (fun n => Some (PStr n)) <$> items.*1.
Proof. induction 1 as [|d it defs items [Hn _] _ IH]; [done|]. simpl. by f_equal. Qed.

End UtilsFacts.

(** C9, as stated, fails when two definitions have the same name: the
    mapping has one item for the name, with the record of the last of
    the two, so that the name of the first one does not map to its kind
    and values. *)
Lemma load_variables_same_name_twice :
  Utils.load_variables Utils.twice =
    Some [("A", {[ "kind" := PStr "Discrete" ]})] /\
  (exists d, Utils.twice !! 0 = Some d /\ d !! "name" = Some (PStr "A") /\
     d !! "kind" = Some (PStr "Nominal") /\ d !! "values" = Some (PList ["x"])).
Proof. split; [by vm_compute|]. eexists. by vm_compute. Qed.

(** C9, amended: on definitions that each have a string for a name and
    a kind, [load_variables] returns a mapping in which every name maps
    to a record with the kind and, exactly when it has values, the
    values of the last definition of that name; when the names are
    pairwise distinct the mapping has one item for each definition, in
    the order of the input, each name with the record of its own
    definition. [is_qualitative] answers whether the kind is Nominal or
    Ordinal, [is_quantitative] whether it is Discrete or Continuous. *)
Theorem load_variables_spec defs attrs k :
  Forall Utils.named defs ->
  attrs !! "kind" = Some k ->
  (exists od, Utils.load_variables defs = Some od /\
     (NoDup ((fun d => d !! "name") <$> defs) -> Forall2 Utils.loaded defs od) /\
     (forall n, match Utils.last_named n defs, Utils.od_get n od with
                | Some d, Some a => Utils.is_attrs d a
                | None, None => True
                | _, _ => False
                end)) /\
  Utils.is_qualitative attrs =
    Some (bool_decide (k = PStr "Nominal" \/ k = PStr "Ordinal")) /\
  Utils.is_quantitative attrs =
    Some (bool_decide (k = PStr "Discrete" \/ k = PStr "Continuous")).
Proof.
  intros Hdefs Hk. split; [|split].
  - destruct (UtilsFacts.make_pairs defs Hdefs) as (items & Hl & Hm).
    exists (foldl (fun od it => Utils.od_set it.1 it.2 od) [] items).
    unfold Utils.load_variables. rewrite Hm. simpl.
    split; [apply UtilsFacts.od_update_strings|]. split.
    + intros Hnd. rewrite (UtilsFacts.loaded_names _ _ Hl) in Hnd.
      apply NoDup_fmap in Hnd; [|by intros ?? [= ?]].
      by rewrite UtilsFacts.foldl_od_set_fresh.
    + intros n. rewrite UtilsFacts.od_get_foldl.
      pose proof (UtilsFacts.last_where_loaded n defs items Hl) as H.
      destruct (Utils.last_named n defs), (Utils.last_where _ items); done.
  - unfold Utils.is_qualitative. rewrite Hk. simpl. f_equal.
    apply bool_decide_ext. rewrite !elem_of_cons, elem_of_nil. tauto.
  - unfold Utils.is_quantitative. rewrite Hk. simpl. f_equal.
    apply bool_decide_ext. rewrite !elem_of_cons, elem_of_nil. tauto.
Qed.

Lemma load_variables_spec_witness :
  (exists od,
     Utils.load_variables
       [qualitative_definition "Foo" "Nominal" ["A"; "B"];
        quantitative_definition "Bar" "Discrete"] = Some od /\
     Forall2 Utils.loaded
       [qualitative_definition "Foo" "Nominal" ["A"; "B"];
        quantitative_definition "Bar" "Discrete"] od) /\
  Utils.is_qualitative {[ "kind" := PStr "Ordinal" ]} = Some true /\
  Utils.is_quantitative {[ "kind" := PStr "Ordinal" ]} = Some false.
Proof.
  assert (Hnamed : Forall Utils.named
            [qualitative_definition "Foo" "Nominal" ["A"; "B"];
             quantitative_definition "Bar" "Discrete"]).
  { repeat constructor; by do 2 eexists. }
  assert (Hkind : ({[ "kind" := PStr "Ordinal" ]} : gmap string value) !! "kind" =
                  Some (PStr "Ordinal")) by reflexivity.
  destruct (load_variables_spec _ _ _ Hnamed Hkind) as ((od & Hod & Hdist & _) & Hq & Hd).
  split; [|split].
  - exists od. split; [exact Hod|]. apply Hdist.
    by apply (bool_decide_unpack _).
  - exact Hq.
  - exact Hd.
Defined.


(** ** The list objects *)

Module StoreFacts.
Import Store StoreTrans.

Lemma store_step_blank st l : is_blank l = true -> Store.step st l = Some st.
Proof. unfold Store.step. by intros ->. Qed.

Lemma store_idle st l :
  h_in_definition st = false ->
  (st2 ←
     match re_match ParseVariables.P_QUALITATIVE l with
     | Some m =>
         n ← group m "name"; k ← group m "kind";
         Some {| heap_of := heap_of st; h_definitions := h_definitions st;
                 h_in_definition := true; h_values := h_values st;
                 h_name := Some (strip n); h_kind := Some (strip k) |}
     | None => Some st
     end;
   match re_match ParseVariables.P_QUANTITATIVE l with
   | Some m =>
       n ← group m "name"; k ← group m "kind";
       let definition : gmap string hvalue :=
         {[ "name" := HStr (strip n); "kind" := HStr (strip k) ]} in
       Some {| heap_of := heap_of st2;
               h_definitions := h_definitions st2 ++ [definition];
               h_in_definition := h_in_definition st2;
               h_values := h_values st2;
               h_name := Some (strip n); h_kind := Some (strip k) |}
   | None => Some st2
   end) = Some (h_apply_event (pv_event l) st).
Proof.
  intros Hi. rewrite ReFacts.match_P_QUALITATIVE, ReFacts.match_P_QUANTITATIVE.
  unfold pv_event.
  destruct (header_of _ qualitative_kinds l) as [[n w]|] eqn:Hq.
  - rewrite (StepFacts.header_exclusive _ (header_tail true) _ _ _ Hq). done.
  - destruct (header_of _ quantitative_kinds l) as [[n w]|]; [|done].
    simpl. by rewrite Hi.
Qed.

Lemma store_step_value st l v vs :
  h_in_definition st = true -> is_blank l = false -> value_of l = Some v ->
  heap_of st !! h_values st = Some vs ->
  Store.step st l = Some (h_push_value st vs (strip v)).
Proof.
  intros Hi Hb Hv Hvs. unfold Store.step.
  rewrite Hb, Hi, ReFacts.match_P_VALUE, Hv. simpl. rewrite Hvs. reflexivity.
Qed.

Lemma store_step_close st l n k :
  h_in_definition st = true -> is_blank l = false -> value_of l = None ->
  h_name st = Some n -> h_kind st = Some k ->
  Store.step st l = Some (h_apply_event (pv_event l) (h_close st n k)).
Proof.
  intros Hi Hb Hv Hn Hk. unfold Store.step.
  rewrite Hb, Hi, ReFacts.match_P_VALUE, Hv.
  destruct st as [h D i cur ? ?]; simpl in Hn, Hk; subst.
  cbn [mbind option_bind h_in_definition h_name h_kind].
  by rewrite (store_idle _ l).
Qed.

Lemma store_step_idle st l :
  h_in_definition st = false -> is_blank l = false ->
  Store.step st l = Some (h_apply_event (pv_event l) st).
Proof.
  intros Hi Hb. unfold Store.step. rewrite Hb, Hi.
  cbn [mbind option_bind]. rewrite Hi. by apply store_idle.
Qed.

(** Records read the same in two heaps that agree on their lists. *)
Lemma observe_stable h h' ds :
  Forall (fun d : gmap string hvalue =>
            forall key r, d !! key = Some (HRef r) -> h' !! r = h !! r) ds ->
  observe h' ds = observe h ds.
Proof.
  unfold observe. induction 1 as [|d ds Hd _ IH]; [done|]. simpl. f_equal; [|done].
  apply map_eq. intros key. rewrite !lookup_fmap.
  destruct (d !! key) as [[s|r]|] eqn:E; simpl; try done.
  by rewrite (Hd key r E).
Qed.

Lemma observe_app h ds ds' : observe h (ds ++ ds') = observe h ds ++ observe h ds'.
Proof. unfold observe. by rewrite fmap_app. Qed.

Lemma refs_within_mono h0 cur cur' ds :
  cur <= cur' -> refs_within h0 cur ds -> refs_within h0 cur' ds.
Proof.
  intros Hle H. unfold refs_within in *. eapply Forall_impl; [exact H|].
  intros d Hd key r Hr. specialize (Hd key r Hr). lia.
Qed.

Lemma refs_within_quantitative h0 cur n k :
  refs_within h0 cur [{[ "name" := HStr n; "kind" := HStr k ]}].
Proof.
  apply Forall_singleton. intros key r Hr.
  apply lookup_insert_Some in Hr as [[_ [=]]|[_ Hr]].
  by apply lookup_singleton_Some in Hr as [_ [=]].
Qed.

Lemma sim_push h0 hst st v :
  sim h0 hst st -> sim h0 (h_push_value hst (values st) v) (push_value st v).
Proof.
  intros (Hi & Hn & Hk & Hcur & Hobs & Hrefs & Hle & Htake).
  pose proof (lookup_lt_Some _ _ _ Hcur) as Hlt.
  unfold sim, h_push_value, push_value. simpl. repeat split; try done.
  - by rewrite list_lookup_insert_eq.
  - rewrite <- Hobs. apply observe_stable.
    eapply Forall_impl; [exact Hrefs|]. intros d Hd key r Hr.
    rewrite list_lookup_insert_ne; [done|]. specialize (Hd key r Hr). lia.
  - by rewrite take_insert_ge.
Qed.

Lemma sim_close h0 hst st n k :
  sim h0 hst st -> sim h0 (h_close hst n k) (close st n k).
Proof.
  intros (Hi & Hn & Hk & Hcur & Hobs & Hrefs & Hle & Htake).
  pose proof (lookup_lt_Some _ _ _ Hcur) as Hlt.
  unfold sim, h_close, close. simpl. repeat split; try done.
  - by rewrite lookup_app_r, Nat.sub_diag.
  - rewrite observe_app, <- Hobs. f_equal.
    + apply observe_stable. eapply Forall_impl; [exact Hrefs|].
      intros d Hd key r Hr. apply lookup_app_l. specialize (Hd key r Hr). lia.
    + unfold observe, qualitative_definition. simpl. f_equal.
      rewrite !fmap_insert, map_fmap_singleton. simpl.
      by rewrite lookup_app_l, Hcur.
  - apply Forall_app. split.
    + eapply refs_within_mono; [|exact Hrefs]. lia.
    + apply Forall_singleton. intros key r Hr.
      apply lookup_insert_Some in Hr as [[_ [=]]|[_ Hr]].
      apply lookup_insert_Some in Hr as [[_ [=]]|[_ Hr]].
      apply lookup_singleton_Some in Hr as [_ [= <-]]. lia.
  - lia.
  - rewrite take_app_le by lia. exact Htake.
Qed.

Lemma sim_event h0 hst st e :
  sim h0 hst st -> sim h0 (h_apply_event e hst) (apply_event e st).
Proof.
  intros (Hi & Hn & Hk & Hcur & Hobs & Hrefs & Hle & Htake).
  destruct e as [|n k|n k]; unfold sim; simpl; repeat split; try done.
  - rewrite observe_app, Hobs. by f_equal.
  - apply Forall_app. split; [done|]. apply refs_within_quantitative.
Qed.

Lemma sim_start h0 : sim h0 (start h0) init.
Proof.
  unfold sim, start. simpl. repeat split; try done.
  - by rewrite lookup_app_r, Nat.sub_diag.
  - constructor.
  - by rewrite take_app_le, take_ge.
Qed.

(** The loop with the heap goes as the loop without. *)
Lemma sim_step h0 hst st l :
  wf st -> sim h0 hst st ->
  exists hst' st', ParseVariables.step st l = Some st' /\
    Store.step hst l = Some hst' /\ wf st' /\ sim h0 hst' st'.
Proof.
  intros Hwf Hsim.
  destruct (step_wf ParseVariables.step pv_event StepFacts.pv_step_blank
              StepFacts.pv_step_value StepFacts.pv_step_close
              StepFacts.pv_step_idle st l Hwf) as (st' & Hst & Hwf').
  pose proof Hsim as (Hi & Hn & Hk & Hcur & _).
  destruct (is_blank l) eqn:Hb.
  { exists hst, st. rewrite StepFacts.pv_step_blank, store_step_blank by done. done. }
  destruct (in_definition st) eqn:Hopen.
  - unfold wf in Hwf. rewrite Hopen in Hwf. destruct Hwf as [[n Hn'] [k Hk']].
    destruct (value_of l) as [v|] eqn:Hv.
    + exists (h_push_value hst (values st) (strip v)), (push_value st (strip v)).
      rewrite (StepFacts.pv_step_value st l v), (store_step_value hst l v (values st))
        by done.
      do 3 (split; [done|]). by apply sim_push.
    + exists (h_apply_event (pv_event l) (h_close hst n k)),
        (apply_event (pv_event l) (close st n k)).
      rewrite (StepFacts.pv_step_close st l n k), (store_step_close hst l n k)
        by congruence.
      do 2 (split; [done|]). split.
      * by apply wf_apply_event.
      * by apply sim_event, sim_close.
  - exists (h_apply_event (pv_event l) hst), (apply_event (pv_event l) st).
    rewrite StepFacts.pv_step_idle, store_step_idle by done.
    do 2 (split; [done|]). split.
    + by apply wf_apply_event.
    + by apply sim_event.
Qed.

Lemma sim_loop h0 ls : forall hst st,
  wf st -> sim h0 hst st ->
  exists hst' st', loop ParseVariables.step st ls = Some st' /\
    hloop hst ls = Some hst' /\ sim h0 hst' st'.
Proof.
  induction ls as [|l ls IH]; intros hst st Hwf Hsim; simpl; [eauto|].
  destruct (sim_step h0 hst st l Hwf Hsim) as (hst1 & st1 & -> & -> & Hwf1 & Hsim1).
  simpl. by apply IH.
Qed.

(** A call on any heap returns what the loop without heap returns, and
    leaves the lists of the heap it began on as they were. *)
Lemma call_spec h lines :
  exists h' ds out,
    Store.parse_lines h lines = Some (h', ds) /\
    ParseVariables.parse_lines lines = Some out /\
    observe h' ds = out /\
    take (length h) h' = h /\
    refs_within h (length h') ds.
Proof.
  destruct (sim_loop h lines (start h) init wf_init (sim_start h))
    as (hst & st & Hst & Hhst & Hsim).
  destruct Hsim as (_ & _ & _ & Hcur & Hobs & Hrefs & _ & Htake).
  exists (heap_of hst), (h_definitions hst), (definitions st).
  unfold Store.parse_lines, ParseVariables.parse_lines. rewrite Hst, Hhst.
  repeat split; try done.
  eapply refs_within_mono; [|exact Hrefs].
  apply Nat.lt_le_incl. by eapply lookup_lt_Some.
Qed.

(** Records made on the heap [h] read the same in a heap that extends
    it. *)
Lemma observe_later h h' ds :
  take (length h) h' = h ->
  Forall (fun d : gmap string hvalue =>
            forall key r, d !! key = Some (HRef r) -> r < length h) ds ->
  observe h' ds = observe h ds.
Proof.
  intros Htake Hrefs. apply observe_stable.
  eapply Forall_impl; [exact Hrefs|]. intros d Hd key r Hr.
  specialize (Hd key r Hr). symmetry.
  rewrite <- Htake at 1. by apply lookup_take_lt.
Qed.

End StoreFacts.

(** C8: a call of [parse_definitions] returns the same records in the
    same order whatever heap earlier calls have left ([h1], [h2]): the
    records that the loop without heap computes from the contents
    alone. A call leaves the lists of earlier calls as they were, so
    that the records returned by an earlier call read the same after
    it. *)
Theorem parse_definitions_deterministic h1 h2 contents later :
  exists h1' ds1 h2' ds2 h1'' ds1',
    Store.parse_definitions h1 contents = Some (h1', ds1) /\
    Store.parse_definitions h2 contents = Some (h2', ds2) /\
    Store.observe h1' ds1 = Store.observe h2' ds2 /\
    ParseVariables.parse_definitions contents = Some (Store.observe h1' ds1) /\
    take (length h1) h1' = h1 /\
    Store.parse_definitions h1' later = Some (h1'', ds1') /\
    Store.observe h1'' ds1 = Store.observe h1' ds1.
Proof.
  unfold Store.parse_definitions, ParseVariables.parse_definitions.
  destruct (StoreFacts.call_spec h1 (readlines contents))
    as (h1' & ds1 & out1 & Hc1 & Hp1 & Ho1 & Ht1 & Hr1).
  destruct (StoreFacts.call_spec h2 (readlines contents))
    as (h2' & ds2 & out2 & Hc2 & Hp2 & Ho2 & Ht2 & Hr2).
  destruct (StoreFacts.call_spec h1' (readlines later))
    as (h1'' & ds1' & out' & Hc' & _ & _ & Ht' & _).
  exists h1', ds1, h2', ds2, h1'', ds1'.
  rewrite Hc1, Hc2, Hc', Hp1, Ho1, Ho2. repeat split; try done.
  - congruence.
  - rewrite <- Ho1. apply StoreFacts.observe_later; [done|].
    eapply Forall_impl; [exact Hr1|]. intros d Hd key r Hr.
    specialize (Hd key r Hr). lia.
Qed.

(** * Further properties of the two parsers *)

(** The hypotheses of the section [Scanner], for each module. *)
Ltac pv_scanner :=
  auto using StepFacts.pv_step_blank, StepFacts.pv_step_value,
    StepFacts.pv_step_close, StepFacts.pv_step_idle.
Ltac qv_scanner :=
  auto using StepFacts.qv_step_blank, StepFacts.qv_step_value,
    StepFacts.qv_step_close, StepFacts.qv_step_idle.

Lemma pv_header_event l : is_header_event (pv_event l) = pv_is_header l.
Proof.
  unfold pv_is_header, pv_event.
  rewrite ReFacts.match_P_QUALITATIVE, ReFacts.match_P_QUANTITATIVE.
  destruct (header_of _ qualitative_kinds l) as [[??]|],
    (header_of _ quantitative_kinds l) as [[??]|]; simpl;
    rewrite ?bool_decide_eq_true_2 by eauto; done.
Qed.

Lemma qv_header_event l : is_header_event (qv_event l) = qv_is_header l.
Proof.
  unfold qv_is_header, qv_event. rewrite ReFacts.match_QV_header.
  destruct (header_of _ qualitative_kinds l) as [[??]|]; simpl;
    rewrite ?bool_decide_eq_true_2 by eauto; done.
Qed.

Lemma header_count_ext (f : string -> event) (g : string -> bool) ls :
  (forall l, is_header_event (f l) = g l) ->
  header_count f ls = length (filter (fun l => g l = true) ls).
Proof.
  intros H. unfold header_count. induction ls as [|l ls IH]; [done|].
  rewrite !filter_cons, H. destruct (g l).
  - rewrite !decide_True by done. simpl. by f_equal.
  - by rewrite !decide_False by done.
Qed.

(** More input only adds records after those already returned: the list
    returned for a beginning of the lines is a beginning of the list
    returned for all of them. In both parser modules. *)
Theorem parse_lines_grows l1 l2 :
  (exists D X, ParseVariables.parse_lines l1 = Some D /\
     ParseVariables.parse_lines (l1 ++ l2) = Some (D ++ X)) /\
  (exists D X, QualitativeVariables.parse_lines l1 = Some D /\
     QualitativeVariables.parse_lines (l1 ++ l2) = Some (D ++ X)).
Proof.
  split.
  - apply (scan_app_extends ParseVariables.step pv_event); pv_scanner.
  - apply (scan_app_extends QualitativeVariables.step qv_event); qv_scanner.
Qed.

(** When the first lines do not end inside an open definition, the
    result on all the lines is the result on the first lines followed
    by the result on the others alone. In both parser modules. *)
Theorem parse_lines_app_closed l1 l2 :
  (forall st, loop ParseVariables.step init l1 = Some st ->
     in_definition st = false ->
     exists D1 D2, ParseVariables.parse_lines l1 = Some D1 /\
       ParseVariables.parse_lines l2 = Some D2 /\
       ParseVariables.parse_lines (l1 ++ l2) = Some (D1 ++ D2)) /\
  (forall st, loop QualitativeVariables.step init l1 = Some st ->
     in_definition st = false ->
     exists D1 D2, QualitativeVariables.parse_lines l1 = Some D1 /\
       QualitativeVariables.parse_lines l2 = Some D2 /\
       QualitativeVariables.parse_lines (l1 ++ l2) = Some (D1 ++ D2)).
Proof.
  split; intros st Hst Hi.
  - destruct (scan_app_idle ParseVariables.step pv_event
                StepFacts.pv_step_blank StepFacts.pv_step_value
                StepFacts.pv_step_close StepFacts.pv_step_idle l1 l2 st Hst Hi)
      as (D2 & H2 & H12).
    exists (definitions st), D2. unfold ParseVariables.parse_lines at 1.
    rewrite Hst. by repeat split.
  - destruct (scan_app_idle QualitativeVariables.step qv_event
                StepFacts.qv_step_blank StepFacts.qv_step_value
                StepFacts.qv_step_close StepFacts.qv_step_idle l1 l2 st Hst Hi)
      as (D2 & H2 & H12).
    exists (definitions st), D2. unfold QualitativeVariables.parse_lines at 1.
    rewrite Hst. by repeat split.
Qed.

Lemma parse_lines_app_closed_witness :
  ParseVariables.parse_lines
    ([open_header; "end" +:+ nl] ++ ["Bar (Discrete): y" +:+ nl]) =
  Some ([qualitative_definition "Foo" "Nominal" []] ++
        [quantitative_definition "Bar" "Discrete"]).
Proof.
  set (l1 := [open_header; "end" +:+ nl]).
  set (st := close (apply_event (Opens "Foo" "Nominal") init) "Foo" "Nominal").
  assert (Hst : loop ParseVariables.step init l1 = Some st) by reflexivity.
  assert (Hi : in_definition st = false) by reflexivity.
  destruct (proj1 (parse_lines_app_closed l1 ["Bar (Discrete): y" +:+ nl]) st Hst Hi)
    as (D1 & D2 & H1 & H2 & H12).
  rewrite H12. vm_compute in H1, H2.
  injection H1 as <-. injection H2 as <-. reflexivity.
Defined.

(** Neither parser returns more records than the input has header
    lines; an input without header line gives the empty list. *)
Theorem records_bounded_by_headers lines :
  (exists D, ParseVariables.parse_lines lines = Some D /\
     length D <= length (filter (fun l => pv_is_header l = true) lines)) /\
  (exists D, QualitativeVariables.parse_lines lines = Some D /\
     length D <= length (filter (fun l => qv_is_header l = true) lines)).
Proof.
  split.
  - destruct (scan_total ParseVariables.step pv_event
                StepFacts.pv_step_blank StepFacts.pv_step_value
                StepFacts.pv_step_close StepFacts.pv_step_idle lines) as [D HD].
    exists D. split; [done|].
    rewrite <- (header_count_ext pv_event _ _ pv_header_event).
    apply (scan_bound ParseVariables.step pv_event); pv_scanner.
  - destruct (scan_total QualitativeVariables.step qv_event
                StepFacts.qv_step_blank StepFacts.qv_step_value
                StepFacts.qv_step_close StepFacts.qv_step_idle lines) as [D HD].
    exists D. split; [done|].
    rewrite <- (header_count_ext qv_event _ _ qv_header_event).
    apply (scan_bound QualitativeVariables.step qv_event); qv_scanner.
Qed.

(** ** The header patterns *)

(** No line is matched by both header patterns of [parse_variables]:
    the second block of the loop body, which rebinds [name] and [kind],
    never follows a first block that has just opened a definition. *)
Theorem header_patterns_exclusive line :
  re_match ParseVariables.P_QUALITATIVE line = None \/
  re_match ParseVariables.P_QUANTITATIVE line = None.
Proof.
  rewrite ReFacts.match_P_QUALITATIVE, ReFacts.match_P_QUANTITATIVE.
  destruct (header_of _ qualitative_kinds line) as [[n w]|] eqn:Hq; [|by left].
  right. by rewrite (StepFacts.header_exclusive _ (header_tail true) _ _ _ Hq).
Qed.

Lemma header_tail_plain_ws r : header_tail false r = true -> header_tail true r = true.
Proof.
  destruct r as [|a r]; [done|]. cbn [header_tail].
  destruct (Ascii.eqb a ")"); [|done]. cbn [andb].
  destruct r as [|b r]; [done|].
  destruct (Ascii.eqb_spec b ":") as [->|Hne]; [|done].
  intros _. reflexivity.
Qed.

Lemma header_of_plain_ws line n w :
  header_of (header_tail false) qualitative_kinds line = Some (n, w) ->
  header_of (header_tail true) qualitative_kinds line = Some (n, w).
Proof.
  unfold header_of. destruct (drop_while _ line) as [|a rest]; [done|].
  destruct (1 <=? _); [|done]. unfold qualitative_kinds.
  cbn [first_some].
  destruct (strip_prefix "Nominal" rest) as [r|] eqn:HN.
  - destruct (header_tail false r) eqn:Ht.
    + by rewrite (header_tail_plain_ws r Ht).
    + apply StrFacts.strip_prefix_Some in HN as ->.
      rewrite !str_app_cons. cbn [strip_prefix]. by rewrite Ascii.eqb_refl || done.
  - destruct (strip_prefix "Ordinal" rest) as [r|]; [|done].
    destruct (header_tail false r) eqn:Ht; [|done].
    by rewrite (header_tail_plain_ws r Ht).
Qed.

(** A header of [qualitative_variables] is a qualitative header of
    [parse_variables], with the same groups. *)
Theorem qv_header_is_pv_header line m :
  re_match QualitativeVariables.P_QUANTITATIVE line = Some m ->
  re_match ParseVariables.P_QUALITATIVE line = Some m.
Proof.
  rewrite ReFacts.match_QV_header, ReFacts.match_P_QUALITATIVE.
  destruct (header_of (header_tail false) qualitative_kinds line) as [[n w]|] eqn:H;
    [|done].
  by rewrite (header_of_plain_ws line n w H).
Qed.

Lemma qv_header_is_pv_header_witness :
  re_match ParseVariables.P_QUALITATIVE open_header = Some open_groups.
Proof. exact (qv_header_is_pv_header open_header open_groups eq_refl). Defined.

Lemma header_of_shape ws words line n w :
  header_of (header_tail ws) words line = Some (n, w) ->
  exists sp trailing,
    line = header_line n w sp trailing /\
    n <> EmptyString /\ all_chars (not_char "(") n = true /\
    w ∈ words /\ all_chars isspace sp = true /\
    (ws = false -> sp = EmptyString).
Proof.
  intros H. pose proof (StepFacts.header_of_kind _ _ _ _ _ H) as Hw.
  unfold header_of in H.
  pose proof (take_drop_while (not_char "(") line) as Hline.
  pose proof (all_chars_take_while (not_char "(") line) as Hn.
  destruct (drop_while (not_char "(") line) as [|a rest] eqn:Hd; [done|].
  apply drop_while_head in Hd. unfold not_char in Hd.
  apply negb_false_iff, Ascii.eqb_eq in Hd as ->.
  destruct (1 <=? _) eqn:Hlen; [|done].
  assert (Hsome : exists r, strip_prefix w rest = Some r /\ header_tail ws r = true
                            /\ n = take_while (not_char "(") line).
  { clear Hw Hline. induction words as [|w0 words IH]; [done|]. simpl in H.
    destruct (strip_prefix w0 rest) as [r|] eqn:Hp; [destruct (header_tail ws r) eqn:Ht|].
    - injection H as <- <-. by exists r.
    - by apply IH.
    - by apply IH. }
  destruct Hsome as (r & Hp & Ht & ->).
  apply StrFacts.strip_prefix_Some in Hp as ->.
  destruct r as [|b r]; [done|]. cbn [header_tail] in Ht.
  apply andb_prop in Ht as [Hb Ht]. apply Ascii.eqb_eq in Hb as ->.
  set (rest' := if ws then drop_while isspace r else r) in Ht.
  destruct rest' as [|c trailing] eqn:Hr; [done|].
  apply Ascii.eqb_eq in Ht as ->.
  exists (if ws then take_while isspace r else EmptyString), trailing.
  split; [|split; [|split; [done|split; [done|split]]]].
  - unfold header_line. rewrite <- Hline at 1. do 3 f_equal.
    subst rest'. destruct ws.
    + by rewrite <- Hr, take_drop_while.
    + by rewrite Hr.
  - intros Hempty. rewrite Hempty in Hlen. done.
  - destruct ws; [apply all_chars_take_while|done].
  - by intros ->.
Qed.

(** What the header patterns match, and nothing else: a text without
    parenthesis that is not empty, a kind of the module in parentheses,
    white space (none in [qualitative_variables]), a colon, and
    anything after it; the groups are that text and that kind. *)
Theorem header_match_shape line m :
  (re_match ParseVariables.P_QUALITATIVE line = Some m ->
   exists n w sp trailing,
     line = header_line n w sp trailing /\
     n <> EmptyString /\ all_chars (not_char "(") n = true /\
     w ∈ qualitative_kinds /\ all_chars isspace sp = true /\
     m = <["kind" := w]> {[ "name" := n ]}) /\
  (re_match ParseVariables.P_QUANTITATIVE line = Some m ->
   exists n w sp trailing,
     line = header_line n w sp trailing /\
     n <> EmptyString /\ all_chars (not_char "(") n = true /\
     w ∈ quantitative_kinds /\ all_chars isspace sp = true /\
     m = <["kind" := w]> {[ "name" := n ]}) /\
  (re_match QualitativeVariables.P_QUANTITATIVE line = Some m ->
   exists n w trailing,
     line = header_line n w EmptyString trailing /\
     n <> EmptyString /\ all_chars (not_char "(") n = true /\
     w ∈ qualitative_kinds /\
     m = <["kind" := w]> {[ "name" := n ]}).
Proof.
  rewrite ReFacts.match_P_QUALITATIVE, ReFacts.match_P_QUANTITATIVE,
    ReFacts.match_QV_header.
  split; [|split].
  - destruct (header_of _ qualitative_kinds line) as [[n w]|] eqn:H; [|done].
    intros [= <-].
    destruct (header_of_shape _ _ _ _ _ H) as (sp & tr & ? & ? & ? & ? & ? & _).
    by exists n, w, sp, tr.
  - destruct (header_of _ quantitative_kinds line) as [[n w]|] eqn:H; [|done].
    intros [= <-].
    destruct (header_of_shape _ _ _ _ _ H) as (sp & tr & ? & ? & ? & ? & ? & _).
    by exists n, w, sp, tr.
  - destruct (header_of (header_tail false) qualitative_kinds line) as [[n w]|] eqn:H;
      [|done].
    intros [= <-].
    destruct (header_of_shape _ _ _ _ _ H) as (sp & tr & -> & ? & ? & ? & ? & Hsp).
    rewrite (Hsp eq_refl). by exists n, w, tr.
Qed.

Lemma header_match_shape_witness :
  exists n w sp trailing,
    open_header = header_line n w sp trailing /\
    n <> EmptyString /\ all_chars (not_char "(") n = true /\
    w ∈ qualitative_kinds /\ all_chars isspace sp = true /\
    open_groups = <["kind" := w]> {[ "name" := n ]}.
Proof. exact (proj1 (header_match_shape open_header open_groups) eq_refl). Defined.

(** ** The two parsers, side by side *)

Lemma projects_event pv qv e e' :
  projects pv qv -> in_definition pv = false ->
  (e' = e /\ (forall n k, e <> Quantitative n k)) \/
  (e' = Ignored /\ exists n k, e = Quantitative n k) ->
  projects (apply_event e pv) (apply_event e' qv).
Proof.
  intros (Hi & Hv & Hnk & Hd) Hidle [[-> Hq]|[-> (n & k & ->)]].
  - destruct e as [|n k|n k]; [done| |by destruct (Hq n k)].
    by repeat split.
  - unfold projects. simpl. split; [done|]. split; [done|]. split.
    + intros Ht. congruence.
    + by rewrite filter_app, Hd, app_nil_r.
Qed.

Lemma projects_close pv qv n k :
  projects pv qv -> projects (close pv n k) (close qv n k).
Proof.
  intros (Hi & Hv & Hnk & Hd). repeat split; simpl; try done.
  by rewrite filter_app, Hd, Hv.
Qed.

Lemma events_side_by_side l :
  re_match ParseVariables.P_QUALITATIVE l =
    re_match QualitativeVariables.P_QUANTITATIVE l ->
  (qv_event l = pv_event l /\ (forall n k, pv_event l <> Quantitative n k)) \/
  (qv_event l = Ignored /\ exists n k, pv_event l = Quantitative n k).
Proof.
  rewrite ReFacts.match_P_QUALITATIVE, ReFacts.match_QV_header.
  unfold qv_event, pv_event. intros H.
  destruct (header_of (header_tail true) qualitative_kinds l) as [[n w]|] eqn:Hq.
  - rewrite (StepFacts.header_exclusive _ (header_tail true) _ _ _ Hq).
    destruct (header_of (header_tail false) qualitative_kinds l) as [[n' w']|];
      [|done].
    assert (Hn : Some n = Some n')
      by exact (f_equal (fun o => match o with
                                  | Some g => group g "name"
                                  | None => None
                                  end) H).
    assert (Hw : Some w = Some w')
      by exact (f_equal (fun o => match o with
                                  | Some g => group g "kind"
                                  | None => None
                                  end) H).
    injection Hn as <-. injection Hw as <-.
    left. by split.
  - destruct (header_of (header_tail false) qualitative_kinds l) as [[n' w']|];
      [done|].
    destruct (header_of (header_tail true) quantitative_kinds l) as [[n k]|].
    + right. split; [done|]. by eexists _, _.
    + left. by split.
Qed.

Lemma projects_step pv qv l :
  re_match ParseVariables.P_QUALITATIVE l =
    re_match QualitativeVariables.P_QUANTITATIVE l ->
  wf pv -> wf qv -> projects pv qv ->
  exists pv' qv', ParseVariables.step pv l = Some pv' /\
    QualitativeVariables.step qv l = Some qv' /\
    wf pv' /\ wf qv' /\ projects pv' qv'.
Proof.
  intros Hl Hwf Hwf' Hp. pose proof Hp as (Hi & Hv & Hnk & Hd).
  pose proof (events_side_by_side l Hl) as He.
  destruct (is_blank l) eqn:Hb.
  { exists pv, qv. rewrite StepFacts.pv_step_blank, StepFacts.qv_step_blank by done.
    done. }
  destruct (in_definition pv) eqn:Hopen; symmetry in Hi.
  - unfold wf in Hwf. rewrite Hopen in Hwf. destruct Hwf as [[n Hn] [k Hk]].
    destruct (Hnk eq_refl) as [Hn' Hk'].
    destruct (value_of l) as [v|] eqn:Hval.
    + exists (push_value pv (strip v)), (push_value qv (strip v)).
      rewrite (StepFacts.pv_step_value pv l v), (StepFacts.qv_step_value qv l v)
        by done.
      do 2 (split; [done|]). split; [unfold wf; simpl; eauto|].
      split; [unfold wf; simpl; rewrite <- Hn', <- Hk'; eauto|].
      repeat split; simpl; try done. by rewrite Hv.
    + exists (apply_event (pv_event l) (close pv n k)),
        (apply_event (qv_event l) (close qv n k)).
      rewrite (StepFacts.pv_step_close pv l n k),
        (StepFacts.qv_step_close qv l n k) by congruence.
      do 2 (split; [done|]). split; [by apply wf_apply_event|].
      split; [by apply wf_apply_event|].
      apply projects_event; [by apply projects_close|done|done].
  - exists (apply_event (pv_event l) pv), (apply_event (qv_event l) qv).
    rewrite StepFacts.pv_step_idle, StepFacts.qv_step_idle by done.
    do 2 (split; [done|]). split; [by apply wf_apply_event|].
    split; [by apply wf_apply_event|].
    by apply projects_event.
Qed.

Lemma projects_loop ls : forall pv qv,
  Forall (fun l => re_match ParseVariables.P_QUALITATIVE l =
                   re_match QualitativeVariables.P_QUANTITATIVE l) ls ->
  wf pv -> wf qv -> projects pv qv ->
  exists pv' qv', loop ParseVariables.step pv ls = Some pv' /\
    loop QualitativeVariables.step qv ls = Some qv' /\ projects pv' qv'.
Proof.
  induction ls as [|l ls IH]; intros pv qv Hls Hwf Hwf' Hp; simpl; [eauto|].
  apply Forall_cons in Hls as [Hl Hls].
  destruct (projects_step pv qv l Hl Hwf Hwf' Hp)
    as (pv1 & qv1 & -> & -> & Hwf1 & Hwf1' & Hp1).
  simpl. by apply IH.
Qed.

(** On lines whose qualitative headers the two modules agree about (no
    header has white space between the parenthesis and the colon),
    [qualitative_variables] returns the records of [parse_variables]
    that have values, in the same order. *)
Theorem qualitative_variables_projects lines :
  Forall (fun l => re_match ParseVariables.P_QUALITATIVE l =
                   re_match QualitativeVariables.P_QUANTITATIVE l) lines ->
  exists D, ParseVariables.parse_lines lines = Some D /\
    QualitativeVariables.parse_lines lines =
      Some (filter (fun d => has_values d = true) D).
Proof.
  intros Hls.
  destruct (projects_loop lines init init Hls wf_init wf_init)
    as (pv & qv & Hpv & Hqv & (_ & _ & _ & Hd)).
  { by repeat split. }
  exists (definitions pv).
  unfold ParseVariables.parse_lines, QualitativeVariables.parse_lines.
  rewrite Hpv, Hqv. simpl. by rewrite Hd.
Qed.

Lemma qualitative_variables_projects_witness :
  exists D,
    ParseVariables.parse_lines (open_pre ++ open_header :: open_values ++ ["end"]) =
      Some D /\
    QualitativeVariables.parse_lines (open_pre ++ open_header :: open_values ++ ["end"]) =
      Some (filter (fun d => has_values d = true) D).
Proof.
  apply qualitative_variables_projects. repeat constructor.
Defined.

(** ** The records of [qualitative_variables] *)

Lemma qv_opens_inv h n' k' :
  qv_event h = Opens n' k' ->
  exists m n, re_match QualitativeVariables.P_QUANTITATIVE h = Some m /\
    group m "name" = Some n /\ group m "kind" = Some k' /\
    k' ∈ qualitative_kinds /\ n' = strip n.
Proof.
  rewrite ReFacts.match_QV_header. unfold qv_event.
  destruct (header_of _ qualitative_kinds h) as [[n k]|] eqn:H; [|done].
  apply StepFacts.header_of_kind in H.
  assert (strip k = k) as -> by (apply strip_kind, elem_of_app; by left).
  intros [= <- <-]. by eexists _, n.
Qed.

(** [qualitative_variables] returns, and returns qualitative records
    only: each has a kind that is Nominal or Ordinal and a [values]
    key, and comes from a header of the input, with for values those of
    the lines between the header and the line that closed it, in their
    order. *)
Theorem qualitative_variables_records contents :
  exists ds, QualitativeVariables.parse_definitions contents = Some ds /\
    Forall (fun d =>
              qv_from_header (readlines contents) d /\
              exists k vs, k ∈ qualitative_kinds /\
                d !! "kind" = Some (PStr k) /\ d !! "values" = Some (PList vs))
      ds.
Proof.
  unfold QualitativeVariables.parse_definitions, QualitativeVariables.parse_lines.
  destruct (loop_wf QualitativeVariables.step qv_event
              StepFacts.qv_step_blank StepFacts.qv_step_value
              StepFacts.qv_step_close StepFacts.qv_step_idle
              init (readlines contents) wf_init) as (st & Hst & _).
  rewrite Hst. exists (definitions st). split; [done|].
  destruct (traced_loop QualitativeVariables.step qv_event
              StepFacts.qv_step_blank StepFacts.qv_step_value
              StepFacts.qv_step_close StepFacts.qv_step_idle
              (readlines contents) st Hst) as [Htr _].
  eapply Forall_impl; [exact Htr|]. intros d [Hq|Hh].
  - destruct Hq as (l & n & k & _ & Hc & _). unfold qv_event in Hc.
    by destruct (header_of _ qualitative_kinds l) as [[??]|].
  - destruct Hh as (pre & h & vs & t & post & st0 & n' & k & -> & Hpre & Hb & Hnv
                    & Hc & Hvs & Ht & Htv & ->).
    destruct (qv_opens_inv h n' k Hc) as (m & n & Hm & Hn & Hk & Hkq & ->).
    split.
    + exists pre, h, vs, t, post, st0, m, n, k.
      rewrite Bridge.omap_added_value. repeat split; try done.
      * intros Hi. by apply Bridge.value_of_None, Hnv.
      * eapply Forall_impl; [exact Hvs|]. intros l Hl.
        by rewrite Bridge.keeps_open_continues.
      * by apply Bridge.value_of_None.
    + by exists k, (omap line_value vs).
Qed.

(** ** Stripped strings *)

Lemma rstrip_last t : forall r a,
  rstrip t = r +:+ String a EmptyString -> isspace a = false.
Proof.
  induction t as [|b t IH]; intros r a; simpl.
  { by destruct r. }
  destruct (rstrip t) as [|c r0] eqn:Ht.
  - destruct (isspace b) eqn:Hb; [by destruct r|].
    destruct r as [|b' r]; [by intros [= <-]|].
    rewrite str_app_cons. intros [= _ H]. by destruct r.
  - destruct r as [|b' r]; [done|].
    rewrite str_app_cons. intros [= _ H]. by apply (IH r a).
Qed.

Lemma rstrip_head a t :
  isspace a = false -> exists r, rstrip (String a t) = String a r.
Proof.
  intros Ha. simpl. destruct (rstrip t); rewrite ?Ha; eauto.
Qed.

Lemma lstrip_head s a t : lstrip s = String a t -> isspace a = false.
Proof.
  induction s as [|b s IH]; [done|]. simpl.
  destruct (isspace b) eqn:Hb; [exact IH|]. by intros [= <- _].
Qed.

Lemma strip_trimmed s : trimmed (strip s).
Proof.
  unfold strip. split.
  - intros a r. destruct (lstrip s) as [|b t] eqn:Hl; [done|].
    pose proof (lstrip_head s b t Hl) as Hb.
    destruct (rstrip_head b t Hb) as (r' & ->). by intros [= <- _].
  - apply rstrip_last.
Qed.

Lemma line_values_trimmed vs : Forall trimmed (omap line_value vs).
Proof.
  induction vs as [|l vs IH]; [constructor|]. simpl.
  unfold line_value at 1. destruct (is_blank l); [exact IH|].
  destruct (value_of l); simpl; [|exact IH].
  constructor; [apply strip_trimmed|exact IH].
Qed.

Lemma record_trimmed_qualitative n k vs :
  trimmed n -> trimmed k -> Forall trimmed vs ->
  record_trimmed (qualitative_definition n k vs).
Proof.
  intros Hn Hk Hvs key. unfold qualitative_definition.
  destruct (decide (key = "name")) as [->|Hname]; [done|].
  rewrite lookup_insert_ne by done.
  destruct (decide (key = "kind")) as [->|Hkind]; [done|].
  rewrite lookup_insert_ne by done.
  destruct (decide (key = "values")) as [->|Hvalues]; [done|].
  by rewrite lookup_singleton_ne.
Qed.

Lemma record_trimmed_quantitative n k :
  trimmed n -> trimmed k -> record_trimmed (quantitative_definition n k).
Proof.
  intros Hn Hk key. unfold quantitative_definition.
  destruct (decide (key = "name")) as [->|Hname]; [done|].
  rewrite lookup_insert_ne by done.
  destruct (decide (key = "kind")) as [->|Hkind]; [done|].
  by rewrite lookup_singleton_ne.
Qed.

Lemma pv_event_trimmed l :
  match pv_event l with
  | Ignored => True
  | Opens n k | Quantitative n k => trimmed n /\ trimmed k
  end.
Proof.
  unfold pv_event.
  destruct (header_of _ qualitative_kinds l) as [[??]|],
    (header_of _ quantitative_kinds l) as [[??]|]; try done;
    split; apply strip_trimmed.
Qed.

Lemma qv_event_trimmed l :
  match qv_event l with
  | Ignored => True
  | Opens n k | Quantitative n k => trimmed n /\ trimmed k
  end.
Proof.
  unfold qv_event.
  destruct (header_of _ qualitative_kinds l) as [[??]|]; try done;
    split; apply strip_trimmed.
Qed.

Lemma traced_trimmed step classify ls d :
  (forall l, match classify l with
             | Ignored => True
             | Opens n k | Quantitative n k => trimmed n /\ trimmed k
             end) ->
  from_quantitative classify ls d \/ from_header step classify ls d ->
  record_trimmed d.
Proof.
  intros Hc [(l & n & k & _ & Hl & ->)|(pre & h & vs & t & post & st & n & k & _ & _ & _ & _ & Hh & _ & _ & _ & ->)].
  - specialize (Hc l). rewrite Hl in Hc. destruct Hc.
    by apply record_trimmed_quantitative.
  - specialize (Hc h). rewrite Hh in Hc. destruct Hc.
    apply record_trimmed_qualitative; [done..|]. apply line_values_trimmed.
Qed.

(** The names, the kinds and the values of the returned records have no
    white space at either end (a value can be the empty string). In
    both parser modules. *)
Theorem records_trimmed contents :
  (exists ds, ParseVariables.parse_definitions contents = Some ds /\
     Forall record_trimmed ds) /\
  (exists ds, QualitativeVariables.parse_definitions contents = Some ds /\
     Forall record_trimmed ds).
Proof.
  split.
  - unfold ParseVariables.parse_definitions, ParseVariables.parse_lines.
    destruct (loop_wf ParseVariables.step pv_event
                StepFacts.pv_step_blank StepFacts.pv_step_value
                StepFacts.pv_step_close StepFacts.pv_step_idle
                init (readlines contents) wf_init) as (st & Hst & _).
    rewrite Hst. exists (definitions st). split; [done|].
    destruct (traced_loop ParseVariables.step pv_event
                StepFacts.pv_step_blank StepFacts.pv_step_value
                StepFacts.pv_step_close StepFacts.pv_step_idle
                (readlines contents) st Hst) as [Htr _].
    eapply Forall_impl; [exact Htr|]. intros d.
    apply traced_trimmed, pv_event_trimmed.
  - unfold QualitativeVariables.parse_definitions, QualitativeVariables.parse_lines.
    destruct (loop_wf QualitativeVariables.step qv_event
                StepFacts.qv_step_blank StepFacts.qv_step_value
                StepFacts.qv_step_close StepFacts.qv_step_idle
                init (readlines contents) wf_init) as (st & Hst & _).
    rewrite Hst. exists (definitions st). split; [done|].
    destruct (traced_loop QualitativeVariables.step qv_event
                StepFacts.qv_step_blank StepFacts.qv_step_value
                StepFacts.qv_step_close StepFacts.qv_step_idle
                (readlines contents) st Hst) as [Htr _].
    eapply Forall_impl; [exact Htr|]. intros d.
    apply traced_trimmed, qv_event_trimmed.
Qed.

(** ** More on the loader *)

Module LoaderFacts.
Import Utils.

Lemma make_pair_named d nm a :
  make_pair d = Some (nm, a) ->
  d !! "name" = Some nm /\ is_Some (d !! "kind").
Proof.
  unfold make_pair. destruct (d !! "name") as [nm'|]; [|done]. simpl.
  destruct (d !! "kind") as [k|]; [|done]. simpl.
  intros [= <- _]. eauto.
Qed.

Lemma od_update_is_Some {A} (pairs : list (value * A)) od :
  is_Some (od_update od pairs) <-> Forall (fun p => exists k, p.1 = PStr k) pairs.
Proof.
  revert od. induction pairs as [|[[k|l] v] pairs IH]; intros od; simpl.
  - split; [constructor|eauto].
  - rewrite IH. split.
    + intros H. constructor; [by exists k|done].
    + by intros [_ H]%Forall_cons.
  - split; [by intros []|]. intros [[k [=]] _]%Forall_cons.
Qed.

Lemma load_variables_named defs :
  is_Some (load_variables defs) -> Forall named defs.
Proof.
  unfold load_variables. destruct (mapM make_pair defs) as [pairs|] eqn:Hm;
    [|by intros []].
  simpl. intros Hod%od_update_is_Some.
  apply mapM_Some in Hm. induction Hm as [|d [nm a] defs pairs Hd _ IH]; [constructor|].
  apply Forall_cons in Hod as [[k Hk] Hod]. simpl in Hk. subst nm.
  constructor; [|by apply IH].
  apply make_pair_named in Hd as [Hn [kd Hkd]]. by exists k, kd.
Qed.

Lemma od_keys_set {A} k (v : A) od :
  (od_set k v od).*1 = if decide (k ∈ od.*1) then od.*1 else od.*1 ++ [k].
Proof.
  induction od as [|[k' v'] od IH].
  { by rewrite decide_False by apply not_elem_of_nil. }
  cbn [od_set]. rewrite fmap_cons. cbn [fst].
  destruct (decide (k = k')) as [->|Hne].
  - rewrite decide_True by left. by rewrite fmap_cons.
  - rewrite fmap_cons, IH. cbn [fst].
    destruct (decide (k ∈ od.*1)) as [Hin|Hin].
    + by rewrite decide_True by (by right).
    + by rewrite decide_False by (by intros [?|?]%elem_of_cons).
Qed.

Lemma filter_filter_ne (seen : list string) k (l : list string) :
  filter (fun y => y ∉ seen ++ [k]) l =
  filter (fun y => y ∉ seen) (filter (fun y => y <> k) l).
Proof.
  rewrite list_filter_filter. apply list_filter_iff. intros y.
  rewrite elem_of_app, list_elem_of_singleton. tauto.
Qed.

Lemma filter_not_in_nil (l : list string) :
  filter (fun y => y ∉ ([] : list string)) l = l.
Proof.
  induction l as [|x l IH]; [done|].
  rewrite filter_cons_True by apply not_elem_of_nil. by rewrite IH.
Qed.

Lemma names_of_length defs : length (names_of defs) <= length defs.
Proof.
  unfold names_of, omap. induction defs as [|d defs IH]; simpl; [lia|].
  destruct (d !! "name") as [[?|?]|]; simpl; lia.
Qed.

Lemma filter_seen_ne (seen : list string) k (l : list string) :
  k ∈ seen ->
  filter (fun y => y ∉ seen) (filter (fun y => y <> k) l) =
  filter (fun y => y ∉ seen) l.
Proof.
  intros Hk. rewrite list_filter_filter. apply list_filter_iff. intros y.
  split; [tauto|]. intros Hy. split; [done|]. by intros ->.
Qed.

Lemma od_keys_foldl {A} (items : list (string * A)) od :
  (foldl (fun od it => od_set it.1 it.2 od) od items).*1 =
  od.*1 ++ filter (fun y => y ∉ od.*1) (first_occurrences items.*1).
Proof.
  revert od. induction items as [|[k v] items IH]; intros od; simpl.
  { by rewrite app_nil_r. }
  rewrite IH, od_keys_set, filter_cons. simpl.
  destruct (decide (k ∈ od.*1)) as [Hin|Hin].
  - rewrite decide_False by tauto. by rewrite filter_seen_ne.
  - rewrite decide_True by done. rewrite <- app_assoc. simpl.
    by rewrite filter_filter_ne.
Qed.

Lemma first_occurrences_NoDup l : NoDup (first_occurrences l).
Proof.
  induction l as [|x l IH]; simpl; [constructor|].
  apply NoDup_cons. split.
  - rewrite list_elem_of_filter. tauto.
  - by apply NoDup_filter.
Qed.

Lemma elem_of_first_occurrences x l : x ∈ first_occurrences l <-> x ∈ l.
Proof.
  induction l as [|y l IH]; simpl; [done|].
  rewrite !elem_of_cons, list_elem_of_filter, IH.
  destruct (decide (x = y)); tauto.
Qed.

Lemma loaded_names_of defs items :
  Forall2 loaded defs items -> names_of defs = items.*1.
Proof.
  unfold names_of. induction 1 as [|d it defs items [Hn _] _ IH]; [done|].
  simpl. rewrite Hn. simpl. by f_equal.
Qed.

End LoaderFacts.

(** [load_variables] raises when some definition, wherever it stands
    in the list, has no name or no kind (a [KeyError] in [make_pair]),
    or has a list for its name (a list is not hashable and cannot be a
    key of the mapping). *)
Theorem load_variables_raises defs :
  Exists (fun d => d !! "name" = None \/ d !! "kind" = None \/
                   exists l, d !! "name" = Some (PList l)) defs ->
  Utils.load_variables defs = None.
Proof.
  intros Hbad. destruct (Utils.load_variables defs) as [od|] eqn:H; [|done].
  assert (Hall : Forall Utils.named defs).
  { apply LoaderFacts.load_variables_named. rewrite H. eauto. }
  apply Exists_exists in Hbad as (d & Hd & Hbad).
  rewrite Forall_forall in Hall. destruct (Hall d Hd) as (n & k & Hn & Hk).
  destruct Hbad as [Hb|[Hb|[l Hb]]]; congruence.
Qed.

Lemma load_variables_raises_witness :
  Utils.load_variables
    [quantitative_definition "A" "Discrete";
     ({[ "name" := PStr "B" ]} : gmap string value)] = None.
Proof.
  apply load_variables_raises. apply Exists_cons_tl, Exists_cons_hd.
  right; left. reflexivity.
Defined.

(** The keys of the mapping are the names of the definitions, without
    repetition, each at the place of its first definition; so there are
    no more items than definitions. *)
Theorem load_variables_keys defs :
  Forall Utils.named defs ->
  exists od, Utils.load_variables defs = Some od /\
    od.*1 = Utils.first_occurrences (Utils.names_of defs) /\
    NoDup od.*1 /\
    (forall n, n ∈ od.*1 <-> n ∈ Utils.names_of defs) /\
    length od <= length defs.
Proof.
  intros Hall. destruct (UtilsFacts.make_pairs defs Hall) as (items & Hl & Hm).
  exists (foldl (fun od it => Utils.od_set it.1 it.2 od) [] items).
  unfold Utils.load_variables. rewrite Hm. simpl.
  split; [apply UtilsFacts.od_update_strings|].
  assert (Hkeys : (foldl (fun od it => Utils.od_set it.1 it.2 od) [] items).*1
                  = Utils.first_occurrences (Utils.names_of defs)).
  { rewrite LoaderFacts.od_keys_foldl, (LoaderFacts.loaded_names_of _ _ Hl).
    apply LoaderFacts.filter_not_in_nil. }
  split; [done|]. rewrite Hkeys. split; [apply LoaderFacts.first_occurrences_NoDup|].
  split; [intros n; apply LoaderFacts.elem_of_first_occurrences|].
  rewrite <- (length_fmap fst), Hkeys.
  assert (Hlen : forall l, length (Utils.first_occurrences l) <= length l).
  { induction l as [|x l IH]; simpl; [lia|].
    pose proof (length_filter (fun y => y <> x) (Utils.first_occurrences l)). lia. }
  etrans; [apply Hlen|]. apply LoaderFacts.names_of_length.
Qed.

Lemma load_variables_keys_witness :
  exists od, Utils.load_variables Utils.twice = Some od /\ od.*1 = ["A"].
Proof.
  assert (Hnamed : Forall Utils.named Utils.twice).
  { repeat constructor; by do 2 eexists. }
  destruct (load_variables_keys Utils.twice Hnamed) as (od & Hod & Hkeys & _).
  exists od. split; [exact Hod|]. rewrite Hkeys. reflexivity.
Defined.

(** ** From the parser to the loader *)

Lemma traced_shape step ls d :
  from_quantitative pv_event ls d \/ from_header step pv_event ls d ->
  record_shape d.
Proof.
  intros [(l & n & k & _ & Hl & ->)|(pre & h & vs & t & post & st & n & k & _ & _ & _ & _ & Hh & _ & _ & _ & ->)].
  - right. exists n, k. split; [|done].
    pose proof (pv_event_by_kind l) as H. by rewrite Hl in H.
  - left. exists n, k, (omap line_value vs). split; [|done].
    pose proof (pv_event_by_kind h) as H. by rewrite Hh in H.
Qed.

Lemma record_shape_named d : record_shape d -> Utils.named d.
Proof.
  intros [(n & k & vs & _ & ->)|(n & k & _ & ->)]; by exists n, (PStr k).
Qed.

Lemma record_shape_classified d a :
  record_shape d -> Utils.is_attrs d a -> classified a.
Proof.
  intros Hd Ha. pose proof (Ha "kind") as Hkind. pose proof (Ha "values") as Hvalues.
  rewrite decide_True in Hkind by (by left).
  rewrite decide_True in Hvalues by (by right).
  unfold classified, Utils.is_qualitative, Utils.is_quantitative.
  rewrite Hkind, Hvalues.
  destruct Hd as [(n & k & vs & Hk & ->)|(n & k & Hk & ->)].
  - left. unfold qualitative_kinds in Hk.
    repeat (apply elem_of_cons in Hk as [->|Hk]);
      [| |by apply elem_of_nil in Hk]; (split; [done|split; [done|by exists vs]]).
  - right. unfold quantitative_kinds in Hk.
    repeat (apply elem_of_cons in Hk as [->|Hk]);
      [| |by apply elem_of_nil in Hk]; by repeat split.
Qed.

Lemma od_set_Forall {A} (P : string * A -> Prop) k v od :
  P (k, v) -> Forall P od -> Forall P (Utils.od_set k v od).
Proof.
  intros Hkv. induction 1 as [|[k' v'] od Hx Hod IH]; simpl.
  { by constructor. }
  destruct (decide (k = k')); constructor; done.
Qed.

Lemma od_foldl_Forall {A} (P : string * A -> Prop) items : forall od,
  Forall P items -> Forall P od ->
  Forall P (foldl (fun od it => Utils.od_set it.1 it.2 od) od items).
Proof.
  induction items as [|[k v] items IH]; intros od Hitems Hod; [done|].
  apply Forall_cons in Hitems as [Hkv Hitems]. simpl.
  apply IH; [done|]. by apply od_set_Forall.
Qed.

(** A definitions file that holds what [parse_definitions] returned is
    loaded without error, and every item of the mapping is of exactly
    one sort: [is_qualitative] holds and the record has values, or
    [is_quantitative] holds and it has none. *)
Theorem parsed_then_loaded contents :
  exists ds od,
    ParseVariables.parse_definitions contents = Some ds /\
    Utils.load_variables ds = Some od /\
    Forall (fun it => classified it.2) od.
Proof.
  unfold ParseVariables.parse_definitions, ParseVariables.parse_lines.
  destruct (loop_wf ParseVariables.step pv_event
              StepFacts.pv_step_blank StepFacts.pv_step_value
              StepFacts.pv_step_close StepFacts.pv_step_idle
              init (readlines contents) wf_init) as (st & Hst & _).
  rewrite Hst.
  destruct (traced_loop ParseVariables.step pv_event
              StepFacts.pv_step_blank StepFacts.pv_step_value
              StepFacts.pv_step_close StepFacts.pv_step_idle
              (readlines contents) st Hst) as [Htr _].
  assert (Hshape : Forall record_shape (definitions st)).
  { eapply Forall_impl; [exact Htr|]. intros d. apply traced_shape. }
  assert (Hnamed : Forall Utils.named (definitions st)).
  { eapply Forall_impl; [exact Hshape|]. apply record_shape_named. }
  destruct (UtilsFacts.make_pairs _ Hnamed) as (items & Hl & Hm).
  exists (definitions st),
    (foldl (fun od it => Utils.od_set it.1 it.2 od) [] items).
  split; [done|]. unfold Utils.load_variables. rewrite Hm. simpl.
  split; [apply UtilsFacts.od_update_strings|].
  apply od_foldl_Forall; [|constructor].
  clear Hm Htr Hnamed Hst. induction Hl as [|d it ds items [_ Ha] _ IH]; [constructor|].
  apply Forall_cons in Hshape as [Hd Hshape].
  constructor; [|by apply IH]. by apply (record_shape_classified d).
Qed.

(** ** Line ends *)

Lemma translate_newlines_to_crlf s :
  all_chars (not_char CR) s = true -> translate_newlines (to_crlf s) = s.
Proof.
  induction s as [|a s IH]; [done|]. cbn [all_chars to_crlf].
  intros [Ha Hs]%andb_prop. unfold not_char in Ha. apply negb_true_iff in Ha.
  destruct (Ascii.eqb_spec a LF) as [->|Hne].
  - cbn [translate_newlines]. rewrite (Ascii.eqb_refl CR), (Ascii.eqb_refl LF).
    by rewrite IH.
  - cbn [translate_newlines]. rewrite Ha. by rewrite IH.
Qed.

Lemma translate_newlines_no_cr s :
  all_chars (not_char CR) s = true -> translate_newlines s = s.
Proof.
  induction s as [|a s IH]; [done|]. cbn [all_chars translate_newlines].
  intros [Ha Hs]%andb_prop. unfold not_char in Ha. apply negb_true_iff in Ha.
  rewrite Ha. by rewrite IH.
Qed.

(** The files are opened in text mode: a file with ["\r\n"] line ends
    gives the same records as the same file with ["\n"] line ends. In
    both parser modules. *)
Theorem crlf_line_ends contents :
  all_chars (not_char CR) contents = true ->
  ParseVariables.parse_definitions (to_crlf contents) =
    ParseVariables.parse_definitions contents /\
  QualitativeVariables.parse_definitions (to_crlf contents) =
    QualitativeVariables.parse_definitions contents.
Proof.
  intros H.
  unfold ParseVariables.parse_definitions, QualitativeVariables.parse_definitions,
    readlines.
  by rewrite translate_newlines_to_crlf, translate_newlines_no_cr.
Qed.

Lemma crlf_line_ends_witness :
  ParseVariables.parse_definitions (to_crlf scenario3) =
    ParseVariables.parse_definitions scenario3.
Proof. exact (proj1 (crlf_line_ends scenario3 eq_refl)). Defined.

(** ** The lists of the records *)

Module SharingFacts.
Import Store StoreTrans StoreFacts.

Lemma record_refs_app ds ds' : record_refs (ds ++ ds') = record_refs ds ++ record_refs ds'.
Proof. unfold record_refs. apply omap_app. Qed.

Lemma record_refs_within h0 cur ds :
  refs_within h0 cur ds -> Forall (fun r => length h0 <= r < cur) (record_refs ds).
Proof.
  unfold refs_within, record_refs, omap.
  induction 1 as [|d ds Hd _ IH]; simpl; [constructor|].
  destruct (d !! "values") as [[s|r]|] eqn:E; try done.
  constructor; [by apply (Hd "values")|done].
Qed.

Lemma fresh_close h0 hst st n k :
  sim h0 hst st -> NoDup (record_refs (h_definitions hst)) ->
  NoDup (record_refs (h_definitions (h_close hst n k))).
Proof.
  intros (_ & _ & _ & _ & _ & Hrefs & _) Hnd. simpl.
  rewrite record_refs_app. apply NoDup_app. split; [done|]. split.
  - intros r Hr Hin. apply list_elem_of_singleton in Hin as ->.
    apply record_refs_within in Hrefs.
    rewrite Forall_forall in Hrefs. specialize (Hrefs _ Hr). lia.
  - apply NoDup_singleton.
Qed.

Lemma fresh_event e hst :
  NoDup (record_refs (h_definitions hst)) ->
  NoDup (record_refs (h_definitions (h_apply_event e hst))).
Proof.
  intros Hnd. destruct e as [|n k|n k]; simpl; try done.
  by rewrite record_refs_app, app_nil_r.
Qed.

Lemma fresh_step h0 hst st l :
  wf st -> sim h0 hst st -> NoDup (record_refs (h_definitions hst)) ->
  exists hst' st', ParseVariables.step st l = Some st' /\
    Store.step hst l = Some hst' /\ wf st' /\ sim h0 hst' st' /\
    NoDup (record_refs (h_definitions hst')).
Proof.
  intros Hwf Hsim Hnd. pose proof Hsim as (Hi & Hn & Hk & Hcur & _).
  destruct (is_blank l) eqn:Hb.
  { exists hst, st. rewrite StepFacts.pv_step_blank, store_step_blank by done. done. }
  destruct (in_definition st) eqn:Hopen.
  - pose proof Hwf as Hwf0. unfold wf in Hwf. rewrite Hopen in Hwf.
    destruct Hwf as [[n Hn'] [k Hk']].
    destruct (value_of l) as [v|] eqn:Hv.
    + exists (h_push_value hst (values st) (strip v)), (push_value st (strip v)).
      rewrite (StepFacts.pv_step_value st l v),
        (store_step_value hst l v (values st)) by done.
      do 2 (split; [done|]). split; [unfold wf; simpl; eauto|].
      split; [by apply sim_push|done].
    + exists (h_apply_event (pv_event l) (h_close hst n k)),
        (apply_event (pv_event l) (close st n k)).
      rewrite (StepFacts.pv_step_close st l n k), (store_step_close hst l n k)
        by congruence.
      do 2 (split; [done|]). split; [by apply wf_apply_event|].
      split; [by apply sim_event, sim_close|].
      apply fresh_event. by apply (fresh_close h0 hst st).
  - exists (h_apply_event (pv_event l) hst), (apply_event (pv_event l) st).
    rewrite StepFacts.pv_step_idle, store_step_idle by done.
    do 2 (split; [done|]). split; [by apply wf_apply_event|].
    split; [by apply sim_event|by apply fresh_event].
Qed.

Lemma fresh_loop h0 ls : forall hst st,
  wf st -> sim h0 hst st -> NoDup (record_refs (h_definitions hst)) ->
  exists hst', hloop hst ls = Some hst' /\
    NoDup (record_refs (h_definitions hst')) /\
    refs_within h0 (h_values hst') (h_definitions hst') /\
    h_values hst' < length (heap_of hst').
Proof.
  induction ls as [|l ls IH]; intros hst st Hwf Hsim Hnd; simpl.
  { exists hst. destruct Hsim as (_ & _ & _ & Hcur & _ & Hrefs & _).
    repeat split; try done. by eapply lookup_lt_Some. }
  destruct (fresh_step h0 hst st l Hwf Hsim Hnd)
    as (hst1 & st1 & _ & -> & Hwf1 & Hsim1 & Hnd1).
  simpl. by apply (IH hst1 st1).
Qed.

End SharingFacts.

(** No two records that a call returns hold the same list, and none
    holds a list that was there before the call or the list that the
    loop was still appending to: changing the values of one record
    changes no other. *)
Theorem returned_lists_not_shared h lines :
  exists h' ds, Store.parse_lines h lines = Some (h', ds) /\
    NoDup (StoreTrans.record_refs ds) /\
    Forall (fun r => length h <= r < length h' - 1) (StoreTrans.record_refs ds).
Proof.
  destruct (SharingFacts.fresh_loop h lines (Store.start h) init wf_init
              (StoreFacts.sim_start h)) as (hst & Hloop & Hnd & Hrefs & Hlt).
  { constructor. }
  exists (Store.heap_of hst), (Store.h_definitions hst).
  unfold Store.parse_lines. rewrite Hloop. simpl. split; [done|]. split; [done|].
  apply SharingFacts.record_refs_within in Hrefs.
  eapply Forall_impl; [exact Hrefs|]. intros r Hr. simpl in Hr. lia.
Qed.

(** ** Blank lines *)

Lemma rstrip_empty s : rstrip s = EmptyString <-> all_chars isspace s = true.
Proof.
  induction s as [|a s IH]; simpl; [done|].
  destruct (rstrip s) as [|b r] eqn:Hr.
  - destruct (isspace a); simpl; [|done].
    split; [intros _; by apply IH|done].
  - split; [done|]. intros H. apply andb_true_iff in H as [_ H].
    by apply IH in H.
Qed.

Lemma lstrip_whitespace s : all_chars isspace s = true -> lstrip s = EmptyString.
Proof.
  induction s as [|a s IH]; simpl; [done|].
  intros H. apply andb_true_iff in H as [-> H]. by apply IH.
Qed.

Lemma lstrip_not_whitespace s :
  all_chars isspace s = false -> all_chars isspace (lstrip s) = false.
Proof.
  induction s as [|a s IH]; simpl; [done|].
  destruct (isspace a) eqn:Ha; simpl; [exact IH|].
  intros _. by rewrite Ha.
Qed.

(** The test [len(line.strip()) == 0] that skips a line holds exactly
    of the lines whose characters are all whitespace ([str.isspace]):
    the empty line, and lines of spaces, tabs, line ends, form feeds,
    the separators 28 to 31, NEL and the no-break space. *)
Theorem blank_is_all_whitespace line :
  is_blank line = all_chars isspace line.
Proof.
  unfold is_blank, strip.
  destruct (all_chars isspace line) eqn:Hw.
  - by rewrite (lstrip_whitespace line Hw).
  - apply lstrip_not_whitespace in Hw.
    destruct (rstrip (lstrip line)) as [|a r] eqn:Hr; [|done].
    apply rstrip_empty in Hr. congruence.
Qed.
